(** * Diagnostics-driven text patching: [fix_indentation.py] and
    [use_new_syntax.py]

    A shallow embedding of the two helper scripts that patch source files
    from a VS Code "Problems" export, and the properties of the patching
    engine proved (or refuted) on it; and of the line-ending converter
    [convert_crlf_to_lf.py], which works on bytes and on a directory tree
    (module [ConvertCrlf]).

    Conventions of the embedding:
    - a Python [str] is the list of its code points ([list N]); a file is
      the [str] it decodes to (files that are not valid UTF-8 are outside
      the model);
    - the file system is a finite map from path strings to file contents;
    - an exception is a value of [result]; an exception nobody catches ends
      the process with exit status 1, as the interpreter does;
    - console output is not modelled, except that [apply_fix] returns which
      of its five messages it printed. *)

From Stdlib Require Import ZArith NArith List Bool Lia String Ascii.
From stdpp Require Import base option list gmap sorting.

Set Default Proof Using "Type".
Local Open Scope Z_scope.

(** ** Python strings *)

Module Py.

Abbreviation char := N.
Abbreviation str := (list N).

(** A literal of the source, as a Python string. *)
Definition py (s : string) : str :=
  List.map N_of_ascii (list_ascii_of_string s).

Definition LF : char := 10%N.
Definition CR : char := 13%N.
Definition SPACE : char := 32%N.
Definition SLASH : char := 47%N.
Definition COLON : char := 58%N.
Definition BACKSLASH : char := 92%N.
Definition BACKTICK : char := 96%N.
Definition DOT : char := 46%N.
(** U+2192, the arrow of the second message shape. *)
Definition ARROW : char := 8594%N.

(** [len(s)] as a Python int. *)
Definition len {A} (l : list A) : Z := Z.of_nat (length l).

(** [s.lstrip(c)] for a one-character argument. *)
Fixpoint lstrip (c : char) (s : str) : str :=
  match s with
  | x :: s' => if (x =? c)%N then lstrip c s' else s
  | [] => []
  end.

(** [c * n]: a negative count gives the empty string. *)
Definition times (c : char) (n : Z) : str := replicate (Z.to_nat n) c.

(** [s.startswith(p)]. *)
Fixpoint startswith (p s : str) : bool :=
  match p, s with
  | [], _ => true
  | a :: p', b :: s' => (a =? b)%N && startswith p' s'
  | _ :: _, [] => false
  end.

(** [s.replace(a, b)] for one-character [a] and [b]. *)
Definition replace (a b : char) (s : str) : str :=
  List.map (fun x => if (x =? a)%N then b else x) s.

(** [old in s]: substring test. *)
Fixpoint contains (old s : str) : bool :=
  startswith old s ||
  match s with
  | [] => false
  | _ :: s' => contains old s'
  end.

(** Slice bounds: a negative index counts from the end, and the result is
    clamped to [0, len]. *)
Definition clamp (n i : Z) : nat :=
  Z.to_nat (if i <? 0 then Z.max 0 (i + n) else Z.min i n).

(** [s[:hi]], [s[lo:]] and [s[lo:hi]]. *)
Definition slice_to (s : str) (hi : Z) : str := take (clamp (len s) hi) s.
Definition slice_from (s : str) (lo : Z) : str := drop (clamp (len s) lo) s.
Definition slice (s : str) (lo hi : Z) : str :=
  take (clamp (len s) hi - clamp (len s) lo)%nat (drop (clamp (len s) lo) s).

(** [sep.join(lines)] for a one-character separator. *)
Fixpoint join (sep : char) (lines : list str) : str :=
  match lines with
  | [] => []
  | [l] => l
  | l :: ls => l ++ sep :: join sep ls
  end.

(** The characters at which [str.splitlines] breaks a line. *)
Definition is_linebreak (c : char) : bool :=
  bool_decide (c ∈ [10; 13; 11; 12; 28; 29; 30; 133; 8232; 8233]%N).

(** [s.splitlines()]: lines without their terminators; CR LF counts as one
    break, and a final terminator opens no empty last line. *)
Fixpoint splitlines (s : str) : list str :=
  match s with
  | [] => []
  | c :: s' =>
      if is_linebreak c then
        [] :: match s' with
              | c' :: s'' =>
                  if (c =? CR)%N && (c' =? LF)%N then splitlines s''
                  else splitlines s'
              | [] => []
              end
      else
        match splitlines s' with
        | [] => [[c]]
        | l :: ls => (c :: l) :: ls
        end
  end.

(** Text-mode reading with [newline=None] (what [Path.read_text] does):
    CR LF and a lone CR both arrive as LF. *)
Fixpoint universal_newlines (s : str) : str :=
  match s with
  | [] => []
  | c :: s' =>
      if (c =? CR)%N then
        LF :: match s' with
              | c' :: s'' =>
                  if (c' =? LF)%N then universal_newlines s''
                  else universal_newlines s'
              | [] => []
              end
      else c :: universal_newlines s'
  end.

(** [f.readlines()] on a file opened with [newline='']: lines keep their
    terminators, which are LF, CR LF or a lone CR. *)
Fixpoint readlines (s : str) : list str :=
  match s with
  | [] => []
  | c :: s' =>
      if (c =? LF)%N then [c] :: readlines s'
      else if (c =? CR)%N then
        match s' with
        | c' :: s'' =>
            if (c' =? LF)%N then [c; c'] :: readlines s''
            else [c] :: readlines s'
        | [] => [[c]]
        end
      else
        match readlines s' with
        | [] => [[c]]
        | l :: ls => (c :: l) :: ls
        end
  end.


(** Every CR of the text is followed by LF: the text has LF and CR LF
    terminators only. *)
Fixpoint no_lone_cr (s : str) : bool :=
  match s with
  | [] => true
  | c :: s' =>
      (if (c =? CR)%N
       then match s' with c' :: _ => (c' =? LF)%N | [] => false end
       else true) && no_lone_cr s'
  end.

(** The text is what [readlines] takes for one line, or is empty. *)
Definition single_line (l : str) : Prop := readlines l = [l] ∨ l = [].

End Py.

(** ** Exceptions and loaded JSON values *)

Inductive exn :=
  | AttributeError | KeyError | TypeError | JSONDecodeError | FileNotFoundError
  | SystemExit (code : Z).

Inductive result (A : Type) :=
  | Ok (a : A)
  | Raise (e : exn).
Arguments Ok {A} a.
Arguments Raise {A} e.

#[global] Instance result_ret : MRet result := fun _ a => Ok a.
#[global] Instance result_bind : MBind result := fun _ _ f m =>
  match m with
  | Ok a => f a
  | Raise e => Raise e
  end.
#[global] Instance result_fmap : FMap result := fun _ _ f m =>
  match m with
  | Ok a => Ok (f a)
  | Raise e => Raise e
  end.

(** What [json.load] returns. Numbers with a fraction or an exponent
    (Python floats) are outside the model. [JDict] holds the items of the
    loaded dict in insertion order. *)
#[warnings="-register-all"] Inductive json :=
  | JNull
  | JBool (b : bool)
  | JInt (z : Z)
  | JStr (s : Py.str)
  | JList (l : list json)
  | JDict (items : list (Py.str * json)).

Module Json.
Import Py.

Fixpoint lookup (k : str) (items : list (str * json)) : option json :=
  match items with
  | [] => None
  | (k', v) :: items' => if decide (k' = k) then Some v else lookup k items'
  end.

(** [d.get(k, default)]: only a dict has [get]. *)
Definition get (d : json) (k : str) (default : json) : result json :=
  match d with
  | JDict items => Ok (from_option id default (lookup k items))
  | _ => Raise AttributeError
  end.

(** [d[k]] for a string key [k]. *)
Definition getitem (d : json) (k : str) : result json :=
  match d with
  | JDict items =>
      match lookup k items with
      | Some v => Ok v
      | None => Raise KeyError
      end
  | _ => Raise TypeError
  end.

(** [v == lit] for a string literal. *)
Definition str_eq (v : json) (lit : str) : bool :=
  match v with
  | JStr s => bool_decide (s = lit)
  | _ => false
  end.

(** The value as an int; a bool is an int in Python. *)
Definition as_int (v : json) : option Z :=
  match v with
  | JInt z => Some z
  | JBool b => Some (if b then 1 else 0)
  | _ => None
  end.

(** [v - 1]. *)
Definition minus_one (v : json) : result Z :=
  match as_int v with
  | Some z => Ok (z - 1)
  | None => Raise TypeError
  end.

(** A [str] argument of [re.match] or [re.search], or of a string method. *)
Definition expect_str (on_other : exn) (v : json) : result str :=
  match v with
  | JStr s => Ok s
  | _ => Raise on_other
  end.

(** [for problem in problems]: the elements of a list, the keys of a
    dict, the characters of a string. *)
Definition iterate (v : json) : result (list json) :=
  match v with
  | JList l => Ok l
  | JDict items => Ok (List.map (fun kv => JStr kv.1) items)
  | JStr s => Ok (List.map (fun c => JStr [c]) s)
  | _ => Raise TypeError
  end.

End Json.

(** ** The host *)

Inductive platform := Posix | Windows.

(** [os.sep]. *)
Definition os_sep (plat : platform) : Py.char :=
  match plat with
  | Posix => Py.SLASH
  | Windows => Py.BACKSLASH
  end.

(** Writing in text mode with [newline=None] ([Path.write_text]): every LF
    is written as [os.linesep]. *)
Definition write_newlines (plat : platform) (s : Py.str) : Py.str :=
  match plat with
  | Posix => s
  | Windows => s ≫= (fun c => if (c =? Py.LF)%N then [Py.CR; Py.LF] else [c])
  end.

(** Files by path. *)
Abbreviation filesystem := (gmap Py.str Py.str).

(** The exit status of the process: the value given to [sys.exit], or 1
    when an exception reaches the top level. *)
Definition exit_status (r : result Z) : Z :=
  match r with
  | Ok code => code
  | Raise (SystemExit code) => code
  | Raise _ => 1
  end.

(** ** Pieces of the regular expressions *)

Module Re.
Import Py.

(** A literal part of a pattern: the text left after it. *)
Fixpoint literal (p s : str) : option str :=
  match p, s with
  | [], _ => Some s
  | a :: p', b :: s' => if (a =? b)%N then literal p' s' else None
  | _ :: _, [] => None
  end.

(** [\d], on the ASCII digits (the digits of other scripts, which
    Python's [\d] and [int] also accept, are left out). *)
Definition is_digit (c : char) : bool := (48 <=? c)%N && (c <=? 57)%N.

(** [\d*] is greedy: the longest run of digits, and the text after it. *)
Fixpoint digits (s : str) : str * str :=
  match s with
  | c :: s' =>
      if is_digit c then let '(d, r) := digits s' in (c :: d, r) else ([], s)
  | [] => ([], [])
  end.

(** [int(ds)] for a run of digits. *)
Definition int (ds : str) : Z :=
  fold_left (fun acc d => 10 * acc + (Z.of_N d - 48)) ds 0.

(** [\s] on a [str] pattern: the Unicode white space. *)
Definition is_space (c : char) : bool :=
  ((9 <=? c) && (c <=? 13) || (28 <=? c) && (c <=? 32) ||
   (8192 <=? c) && (c <=? 8202) ||
   bool_decide (c ∈ [133; 160; 5760; 8232; 8233; 8239; 8287; 12288]))%N.

(** [\s+]: at least one white-space character, then the longest run. *)
Fixpoint skip_spaces (s : str) : str :=
  match s with
  | c :: s' => if is_space c then skip_spaces s' else s
  | [] => []
  end.

Definition spaces1 (s : str) : option str :=
  match s with
  | c :: s' => if is_space c then Some (skip_spaces s') else None
  | [] => None
  end.

(** [[^`]*] followed by a backtick: the run before the next backtick and
    the text after that backtick. *)
Fixpoint until_backtick (s : str) : option (str * str) :=
  match s with
  | [] => None
  | c :: s' =>
      if (c =? BACKTICK)%N then Some ([], s')
      else '(g, r) ← until_backtick s'; Some (c :: g, r)
  end.

End Re.

(** ** [fix_indentation.py] *)

Module FixIndentation.
Import Py.

(** [re.match(r'Expected indentation of (\d+) spaces but found (\d+)\.',
    message)]; [None] stands for the pair [(None, None)]. The match is
    anchored at the start only. *)
Definition parse_indentation_message (message : str) : option (Z * Z) :=
  r ← Re.literal (py "Expected indentation of ") message;
  let '(d1, r) := Re.digits r in
  if decide (d1 = []) then None else
  r ← Re.literal (py " spaces but found ") r;
  let '(d2, r) := Re.digits r in
  if decide (d2 = []) then None else
  _ ← Re.literal [DOT] r;
  Some (Re.int d1, Re.int d2).

(** One entry of a file's list in [grouped]. [line] is whatever
    [problem.get('startLineNumber')] gave, [JNull] for [None]. *)
Record entry := {
  line : json;
  expected : Z;
  found : Z;
  message : str
}.

(** The [grouped] dict, in insertion order. *)
Fixpoint add_problem (file_path : str) (p : entry)
    (grouped : list (str * list entry)) : list (str * list entry) :=
  match grouped with
  | [] => [(file_path, [p])]
  | (k, ps) :: grouped' =>
      if decide (k = file_path) then (k, ps ++ [p]) :: grouped'
      else (k, ps) :: add_problem file_path p grouped'
  end.

(** Lines 61 to 66: the path of the file a diagnostic is about. *)
Definition resource_path (plat : platform) (resource : str) : str :=
  let resource :=
    if startswith (py "/K:") resource then py "K:" ++ slice_from resource 3
    else resource in
  replace SLASH (os_sep plat) resource.

(** The body of the loop of [group_indentation_problems]. *)
Definition group_problem (plat : platform)
    (grouped : list (str * list entry)) (problem : json)
    : result (list (str * list entry)) :=
  code ← Json.get problem (py "code") (JDict []);
  value ← Json.get code (py "value") JNull;
  if negb (Json.str_eq value (py "indent")) then Ok grouped else
  resource ← Json.get problem (py "resource") (JStr []);
  resource ← Json.expect_str AttributeError resource;
  let file_path := resource_path plat resource in
  message ← Json.get problem (py "message") (JStr []);
  message ← Json.expect_str TypeError message;
  match parse_indentation_message message with
  | None => Ok grouped
  | Some (expected, found) =>
      line ← Json.get problem (py "startLineNumber") JNull;
      Ok (add_problem file_path
            {| line := line; expected := expected; found := found;
               message := message |} grouped)
  end.


Fixpoint group_loop (plat : platform) (problems : list json)
    (grouped : list (str * list entry))
    : result (list (str * list entry)) :=
  match problems with
  | [] => Ok grouped
  | problem :: problems' =>
      grouped' ← group_problem plat grouped problem;
      group_loop plat problems' grouped'
  end.

Definition group_indentation_problems (plat : platform) (problems : json)
    : result (list (str * list entry)) :=
  items ← Json.iterate problems;
  group_loop plat items [].

Definition leading_spaces (line : str) : Z :=
  len line - len (lstrip SPACE line).

Definition fix_line_indentation (line : str) (expected found : Z) : str :=
  if decide (leading_spaces line = found) then
    times SPACE expected ++ lstrip SPACE line
  else line.

(** The sort key [p['line']] when it is an int. *)
Definition line_number (p : entry) : option Z := Json.as_int (line p).

(** The number the sort compares (0 stands in for a key that is not an
    int, which is never compared: see [sorted_by_line]). *)
Definition key (p : entry) : Z := default 0 (line_number p).

(** [sorted(problems, key=..., reverse=True)] is stable: of two entries
    with the same key the one that came first stays first. *)
Fixpoint insert_desc (p : entry) (sorted : list entry) : list entry :=
  match sorted with
  | [] => [p]
  | q :: sorted' =>
      if key p <? key q then q :: insert_desc p sorted'
      else p :: q :: sorted'
  end.

(** Sorting compares keys as soon as there are two entries, and a key
    that is not an int does not compare with an int ([TypeError]). Keys
    that are all strings, or all arrays, do compare with each other in
    Python; they raise the same [TypeError] one step later, at
    [1 <= line_num], so the model lets them raise here. *)
Definition sorted_by_line (problems : list entry) : result (list entry) :=
  if bool_decide (2 ≤ length problems)%nat &&
     existsb (fun p => bool_decide (line_number p = None)) problems
  then Raise TypeError
  else Ok (foldr insert_desc [] problems).

(** The loop at lines 138 to 149, on the pair [(lines, modified)]. *)
Definition fix_problem (p : entry) (st : list str * bool)
    : result (list str * bool) :=
  let '(lines, modified) := st in
  match line_number p with
  | None => Raise TypeError
  | Some line_num =>
      if (1 <=? line_num) && (line_num <=? len lines) then
        let i := Z.to_nat (line_num - 1) in
        let original_line := default [] (lines !! i) in
        let fixed_line :=
          fix_line_indentation original_line (expected p) (found p) in
        if decide (fixed_line ≠ original_line)
        then Ok (<[i := fixed_line]> lines, true)
        else Ok (lines, modified)
      else Ok (lines, modified)
  end.

Fixpoint fix_loop (problems : list entry) (st : list str * bool)
    : result (list str * bool) :=
  match problems with
  | [] => Ok st
  | p :: problems' => st' ← fix_problem p st; fix_loop problems' st'
  end.

(** The [try] block of [fix_file_indentation], from the lines read. *)
Definition fix_lines (lines : list str) (problems : list entry)
    : result (list str * bool) :=
  sorted_problems ← sorted_by_line problems;
  fix_loop sorted_problems (lines, false).

(** [fix_file_indentation]: the flag returned and the file system left.
    [except Exception] turns every exception of the block into [False],
    before anything is written. *)
Definition fix_file_indentation (fs : filesystem) (file_path : str)
    (problems : list entry) : bool * filesystem :=
  match fs !! file_path with
  | None => (false, fs)
  | Some content =>
      match fix_lines (readlines content) problems with
      | Ok (lines, true) => (true, <[file_path := concat lines]> fs)
      | Ok (_, false) => (false, fs)
      | Raise _ => (false, fs)
      end
  end.

(** The counters of [main]. *)
Record summary := {
  files_processed : Z;
  files_fixed : Z;
  total_fixes : Z
}.

(** The loop at lines 206 to 217. *)
Fixpoint fix_files (grouped : list (str * list entry)) (fs : filesystem)
    (files_fixed total_fixes : Z) : filesystem * Z * Z :=
  match grouped with
  | [] => (fs, files_fixed, total_fixes)
  | (file_path, file_problems) :: grouped' =>
      let '(fixed, fs') := fix_file_indentation fs file_path file_problems in
      if fixed
      then fix_files grouped' fs' (files_fixed + 1)
             (total_fixes + len file_problems)
      else fix_files grouped' fs' files_fixed total_fixes
  end.

Section Main.
(** [json.loads]: [None] when the text is not JSON. *)
Variable json_loads : str -> option json.
Variable plat : platform.

Definition load_problems (fs : filesystem) (problems_file : str)
    : result json :=
  match fs !! problems_file with
  | None => Raise (SystemExit 1)
  | Some text =>
      match json_loads text with
      | Some problems => Ok problems
      | None => Raise (SystemExit 1)
      end
  end.

(** [main]: its return value (with the summary it printed, if it got
    that far) or the exception that left it, and the file system. *)
Definition main (fs : filesystem) (problems_file : str)
    : result (Z * option summary) * filesystem :=
  match load_problems fs problems_file with
  | Raise e => (Raise e, fs)
  | Ok problems =>
      match group_indentation_problems plat problems with
      | Raise e => (Raise e, fs)
      | Ok [] => (Ok (0, None), fs)
      | Ok grouped_problems =>
          let '(fs', files_fixed, total_fixes) :=
            fix_files grouped_problems fs 0 0 in
          (Ok (0, Some {| files_processed := len grouped_problems;
                          files_fixed := files_fixed;
                          total_fixes := total_fixes |}), fs')
      end
  end.

(** [sys.exit(main())]. *)
Definition run (fs : filesystem) (problems_file : str) : Z * filesystem :=
  let '(r, fs') := main fs problems_file in (exit_status (fst <$> r), fs').
End Main.

End FixIndentation.

(** ** [use_new_syntax.py] *)

Module UseNewSyntax.
Import Py.

(** One element of [fixes]. [file_path] is the string the [Path] was
    built from: it names the file for the file system, and how [pathlib]
    spells it back is not modelled. [line] and the columns are 0-based. *)
Record fix_item := {
  file_path : str;
  line : Z;
  col_start : Z;
  col_end : Z;
  old_class : str;
  new_class : str
}.

Definition is_letter (c : char) : bool :=
  ((65 <=? c) && (c <=? 90) || (97 <=? c) && (c <=? 122))%N.

(** [re.match(r'^/[a-zA-Z]:/', raw_resource)]. *)
Definition drive_prefix (raw_resource : str) : bool :=
  match raw_resource with
  | a :: x :: b :: c :: _ =>
      (a =? SLASH)%N && is_letter x && (b =? COLON)%N && (c =? SLASH)%N
  | _ => false
  end.

(** Lines 17 to 19. *)
Definition normalize_resource (raw_resource : str) : str :=
  if drive_prefix raw_resource then lstrip SLASH raw_resource
  else raw_resource.

(** The joining words between the two quoted classes. *)
Definition joiner (s : str) : option str :=
  match Re.literal (py "can be written as") s with
  | Some r => Some r
  | None => Re.literal [ARROW] s
  end.

(** The pattern of line 25 from just after its first backtick. Every
    repetition in it is followed by a character it cannot take, so the
    longest run is the only one that can match. *)
Definition match_after_backtick (s : str) : option (str * str) :=
  '(old_class, r) ← Re.until_backtick s;
  if decide (old_class = []) then None else
  r ← Re.spaces1 r;
  r ← joiner r;
  r ← Re.spaces1 r;
  r ← Re.literal [BACKTICK] r;
  '(new_class, _) ← Re.until_backtick r;
  if decide (new_class = []) then None else
  Some (old_class, new_class).

(** [re.search]: the leftmost position where the pattern matches. *)
Fixpoint search (message : str) : option (str * str) :=
  match message with
  | [] => None
  | c :: s =>
      if (c =? BACKTICK)%N then
        match match_after_backtick s with
        | Some groups => Some groups
        | None => search s
        end
      else search s
  end.

(** The body of the loop of [parse_fixes]: the fix of one problem, if it
    yields one. *)
Definition parse_problem (problem : json) : result (option fix_item) :=
  owner ← Json.get problem (py "owner") JNull;
  if negb (Json.str_eq owner (py "tailwindcss-intellisense")) then Ok None else
  code ← Json.get problem (py "code") JNull;
  if negb (Json.str_eq code (py "suggestCanonicalClasses")) then Ok None else
  raw_resource ← Json.getitem problem (py "resource");
  raw_resource ← Json.expect_str TypeError raw_resource;
  let resource := normalize_resource raw_resource in
  message ← Json.getitem problem (py "message");
  message ← Json.expect_str TypeError message;
  match search message with
  | None => Ok None
  | Some (old_class, new_class) =>
      line ← Json.getitem problem (py "startLineNumber") ≫= Json.minus_one;
      col_start ← Json.getitem problem (py "startColumn") ≫= Json.minus_one;
      col_end ← Json.getitem problem (py "endColumn") ≫= Json.minus_one;
      Ok (Some {| file_path := resource; line := line;
                  col_start := col_start; col_end := col_end;
                  old_class := old_class; new_class := new_class |})
  end.

Fixpoint parse_loop (problems : list json) : result (list fix_item) :=
  match problems with
  | [] => Ok []
  | problem :: problems' =>
      f ← parse_problem problem;
      fixes ← parse_loop problems';
      Ok (from_option (fun f => [f]) [] f ++ fixes)
  end.

(** Which message [apply_fix] printed. *)
Inductive outcome :=
  | Fixed
  | NotInSpan
  | RangeOutOfBounds
  | LineOutOfBounds
  | FileNotFound.

#[global] Instance outcome_eq_dec : EqDecision outcome.
Proof. solve_decision. Defined.

Section Host.
Variable json_loads : str -> option json.
Variable plat : platform.

Definition parse_fixes (fs : filesystem) (problems_json_path : str)
    : result (list fix_item) :=
  match fs !! problems_json_path with
  | None => Raise FileNotFoundError
  | Some text =>
      match json_loads text with
      | None => Raise JSONDecodeError
      | Some problems => Json.iterate problems ≫= parse_loop
      end
  end.

Definition apply_fix (fs : filesystem) (f : fix_item) : filesystem * outcome :=
  match fs !! file_path f with
  | None => (fs, FileNotFound)
  | Some content =>
      let lines := splitlines (universal_newlines content) in
      if (0 <=? line f) && (line f <? len lines) then
        let line_content := default [] (lines !! Z.to_nat (line f)) in
        if (col_start f <? len line_content) &&
           (col_end f <=? len line_content) then
          let span := slice line_content (col_start f) (col_end f) in
          if contains (old_class f) span then
            let new_line :=
              slice_to line_content (col_start f) ++ new_class f ++
              slice_from line_content (col_end f) in
            let lines := <[Z.to_nat (line f) := new_line]> lines in
            (<[file_path f := write_newlines plat (join LF lines ++ [LF])]> fs,
             Fixed)
          else (fs, NotInSpan)
        else (fs, RangeOutOfBounds)
      else (fs, LineOutOfBounds)
  end.

(** The loop over [fixes] at lines 77 and 78, with the messages printed. *)
Fixpoint apply_fixes (fs : filesystem) (fixes : list fix_item)
    : filesystem * list outcome :=
  match fixes with
  | [] => (fs, [])
  | f :: fixes' =>
      let '(fs', o) := apply_fix fs f in
      let '(fs'', os) := apply_fixes fs' fixes' in
      (fs'', o :: os)
  end.

(** The script's main block: how it ended and the file system. *)
Definition main (fs : filesystem) (problems_file : str)
    : result Z * filesystem :=
  match fs !! problems_file with
  | None => (Raise (SystemExit 1), fs)
  | Some _ =>
      match parse_fixes fs problems_file with
      | Raise e => (Raise e, fs)
      | Ok [] => (Raise (SystemExit 0), fs)
      | Ok fixes => (Ok 0, (apply_fixes fs fixes).1)
      end
  end.

Definition run (fs : filesystem) (problems_file : str) : Z * filesystem :=
  let '(r, fs') := main fs problems_file in (exit_status r, fs').
End Host.

End UseNewSyntax.

(** ** Reading the [grouped] dict *)

Module Grouped.
Import Py.

(** [grouped.get(file_path, [])]: the entries collected for a file. *)
Fixpoint get (file_path : str)
    (grouped : list (str * list FixIndentation.entry))
    : list FixIndentation.entry :=
  match grouped with
  | [] => []
  | (k, ps) :: grouped' =>
      if decide (k = file_path) then ps else get file_path grouped'
  end.

End Grouped.

(** ** Diagnostics of other kinds *)

Module Findings.
Import Py.

(** An object that is not an [indent] finding: it has no [code], or its
    [code] is an object whose [value] is not the string [indent]. *)
Definition not_indent (problem : json) : Prop :=
  ∃ items, problem = JDict items ∧
    (Json.lookup (py "code") items = None ∨
     ∃ fields,
       Json.lookup (py "code") items = Some (JDict fields) ∧
       Json.str_eq (default JNull (Json.lookup (py "value") fields))
         (py "indent") = false).

(** An object that is not a canonical-class suggestion: its [owner] is
    not [tailwindcss-intellisense], or its [code] is not
    [suggestCanonicalClasses]. *)
Definition not_canonical (problem : json) : Prop :=
  ∃ items, problem = JDict items ∧
    (Json.str_eq (default JNull (Json.lookup (py "owner") items))
       (py "tailwindcss-intellisense") = false ∨
     Json.str_eq (default JNull (Json.lookup (py "code") items))
       (py "suggestCanonicalClasses") = false).

End Findings.

(** * [convert_crlf_to_lf.py] *)

Module ConvertCrlf.
Import Py.

(** A [bytes] object: the values of its bytes. *)
Abbreviation bytes := (list N).

Definition SKIP_DIRS : list str :=
  [py "node_modules"; py ".git"; py "dist"; py "build"; py "coverage";
   py "__pycache__"; py ".vscode"; py ".idea"].

Definition PROCESSABLE_EXTENSIONS : list str :=
  [py ".js"; py ".jsx"; py ".ts"; py ".tsx";
   py ".json"; py ".md"; py ".txt";
   py ".py"; py ".sh"; py ".bash";
   py ".yml"; py ".yaml";
   py ".css"; py ".scss"; py ".sass";
   py ".html"; py ".xml";
   py ".env"; py ".sample";
   py ".gitignore"; py ".eslintrc"].

(** [name.rfind('.')], [None] for -1. *)
Fixpoint rfind_dot (name : str) : option Z :=
  match name with
  | [] => None
  | c :: name' =>
      match rfind_dot name' with
      | Some i => Some (i + 1)
      | None => if (c =? DOT)%N then Some 0 else None
      end
  end.

(** [file_path.suffix] for a path whose last component is [name], as
    [pathlib] computes it up to CPython 3.13: [name[i:]] for
    [i = name.rfind('.')] when [0 < i < len(name) - 1], else the empty
    string. *)
Definition suffix (name : str) : str :=
  match rfind_dot name with
  | Some i =>
      if (0 <? i) && (i <? len name - 1) then slice_from name i else []
  | None => []
  end.

(** A regular file: its bytes, and whether the process may open it for
    reading and for writing ([open] raises [PermissionError] when it may
    not). Links and special files are outside the model, so that
    [is_file()] holds of every file of a directory. *)
Record file := {
  content : bytes;
  readable : bool;
  writable : bool
}.

(** [should_process_file] for a regular file named [name]. *)
Definition should_process_file (name : str) : bool :=
  if bool_decide (suffix name ∈ PROCESSABLE_EXTENSIONS) then true
  else if bool_decide
            (name ∈ [py ".gitignore"; py ".eslintrc"; py ".cursorrules"])
  then true
  else false.

(** [has_crlf]: the [except] clause turns a failed [open] into [False]. *)
Definition has_crlf (f : file) : bool :=
  if readable f then contains [CR; LF] (content f) else false.

(** [content.replace(b'\r\n', b'\n')]: the occurrences are taken from the
    left, and none overlaps another. *)
Fixpoint replace_crlf (content : bytes) : bytes :=
  match content with
  | [] => []
  | c :: rest =>
      match rest with
      | c' :: rest' =>
          if (c =? CR)%N && (c' =? LF)%N then LF :: replace_crlf rest'
          else c :: replace_crlf rest
      | [] => [c]
      end
  end.

(** [convert_to_lf]: the flag returned and the file left. A file that
    cannot be opened for writing is left as it was. *)
Definition convert_to_lf (f : file) : bool * file :=
  if readable f then
    let content := replace_crlf (content f) in
    if writable f
    then (true, {| content := content; readable := readable f;
                   writable := writable f |})
    else (false, f)
  else (false, f).

(** The counters of [scan_and_convert]. *)
Record counters := {
  converted_count : Z;
  skipped_count : Z;
  error_count : Z;
  total_scanned : Z
}.

(** The body of the loop over [files], lines 89 to 105. *)
Definition scan_file (name : str) (f : file) (c : counters)
    : file * counters :=
  if negb (should_process_file name) then (f, c) else
  let total_scanned := total_scanned c + 1 in
  if has_crlf f then
    let '(converted, f') := convert_to_lf f in
    if converted
    then (f', {| converted_count := converted_count c + 1;
                 skipped_count := skipped_count c;
                 error_count := error_count c;
                 total_scanned := total_scanned |})
    else (f', {| converted_count := converted_count c;
                 skipped_count := skipped_count c;
                 error_count := error_count c + 1;
                 total_scanned := total_scanned |})
  else (f, {| converted_count := converted_count c;
              skipped_count := skipped_count c + 1;
              error_count := error_count c;
              total_scanned := total_scanned |}).

Fixpoint scan_files (files : list (str * file)) (c : counters)
    : list (str * file) * counters :=
  match files with
  | [] => ([], c)
  | (file_name, f) :: files' =>
      let '(f', c) := scan_file file_name f c in
      let '(files'', c) := scan_files files' c in
      ((file_name, f') :: files'', c)
  end.

(** A directory as [os.walk] lists it: its subdirectories and its
    files, each by name, in the order of the listing. *)
#[warnings="-register-all"] Inductive dir :=
  | Dir (dirs : list (str * dir)) (files : list (str * file)).

(** The subdirectories [os.walk] goes on with, in order: those that
    line 86 left in [dirs]. *)
Definition scan_dirs (scan : dir → counters → dir * counters)
    : list (str * dir) → counters → list (str * dir) * counters :=
  fix go dirs c :=
    match dirs with
    | [] => ([], c)
    | (d, sub) :: dirs' =>
        if bool_decide (d ∈ SKIP_DIRS) then
          let '(dirs'', c) := go dirs' c in ((d, sub) :: dirs'', c)
        else
          let '(sub', c) := scan sub c in
          let '(dirs'', c) := go dirs' c in
          ((d, sub') :: dirs'', c)
    end.

(** The loop of [scan_and_convert] over [os.walk(root_dir)], top down:
    the files of a directory, then its subdirectories. *)
Fixpoint scan (root : dir) (c : counters) : dir * counters :=
  match root with
  | Dir dirs files =>
      let '(files', c) := scan_files files c in
      let '(dirs', c) := scan_dirs scan dirs c in
      (Dir dirs' files', c)
  end.

(** [scan_and_convert]: the tree left and the counters of the summary. *)
Definition scan_and_convert (root_dir : dir) : dir * counters :=
  scan root_dir {| converted_count := 0; skipped_count := 0;
                   error_count := 0; total_scanned := 0 |}.

(** The files of a tree with their paths from the root, in the order of
    the walk. *)
Fixpoint all_files (root : dir) : list (list str * file) :=
  match root with
  | Dir dirs files =>
      ((λ nf, ([nf.1], nf.2)) <$> files) ++
      concat ((λ nd, (λ pf, (nd.1 :: pf.1, pf.2)) <$> all_files nd.2)
                <$> dirs)
  end.

End ConvertCrlf.

(** Paths of the walk: whether the loop of [scan_and_convert] gets to the
    file at [path] (the names from the root down to the file) and
    processes it. *)
Module Walk.
Import Py ConvertCrlf.

Fixpoint visited (path : list str) : bool :=
  match path with
  | [] => false
  | [file_name] => should_process_file file_name
  | d :: path' => negb (bool_decide (d ∈ SKIP_DIRS)) && visited path'
  end.

(** What the walk leaves of the file at a path. *)
Definition left_by_scan (pf : list str * file) : list str * file :=
  (pf.1, if visited pf.1 then (convert_to_lf pf.2).2 else pf.2).

(** The files the loop processes that [Q] holds of. *)
Definition counted (Q : file → bool) (pf : list str * file) : Prop :=
  visited pf.1 && Q pf.2.

#[global] Instance counted_dec Q pf : Decision (counted Q pf).
Proof. unfold counted. apply _. Defined.

End Walk.

(** ** Sample inputs

    Concrete files and diagnostics on which the properties below are
    evaluated. *)

Module Samples.
Import Py.

(** One line whose classes [p-4 m-2] fill columns 0 to 7, and an edit of
    [p-4] over that whole span. *)
Definition class_file : filesystem :=
  {[ py "app.html" := py "p-4 m-2" ++ [LF] ]}.
Definition wide_fix : UseNewSyntax.fix_item :=
  {| UseNewSyntax.file_path := py "app.html"; UseNewSyntax.line := 0;
     UseNewSyntax.col_start := 0; UseNewSyntax.col_end := 7;
     UseNewSyntax.old_class := py "p-4"; UseNewSyntax.new_class := py "p-1" |}.


(** A line indented by six spaces and the diagnostic asking for four. *)
Definition six_spaces_line : str := py "      x" ++ [LF].
Definition four_spaces_line : str := py "    x" ++ [LF].

(** Drive-letter paths as VS Code exports them, and a POSIX path. *)
Definition c_drive_path : str := py "/C:/dir/file.js".
Definition k_drive_path : str := py "/K:/dir/file.js".
Definition posix_path : str := py "/home/dev/file.js".


(** Two canonical-class diagnostics on one line, as the export lists
    them (left to right), the fixes parsed from them, and the file. *)
Definition class_problem (old_class new_class : str)
    (start_column end_column : Z) : json :=
  JDict [(py "owner", JStr (py "tailwindcss-intellisense"));
         (py "code", JStr (py "suggestCanonicalClasses"));
         (py "resource", JStr (py "/k:/app.html"));
         (py "message",
          JStr (py "The class `" ++ old_class ++ py "` can be written as `"
                ++ new_class ++ py "`"));
         (py "startLineNumber", JInt 1);
         (py "startColumn", JInt start_column);
         (py "endColumn", JInt end_column)].
Definition left_problem : json := class_problem (py "aa") (py "xxxx") 1 3.
Definition right_problem : json := class_problem (py "bb") (py "yy") 4 6.
Definition left_fix : UseNewSyntax.fix_item :=
  {| UseNewSyntax.file_path := py "k:/app.html"; UseNewSyntax.line := 0;
     UseNewSyntax.col_start := 0; UseNewSyntax.col_end := 2;
     UseNewSyntax.old_class := py "aa"; UseNewSyntax.new_class := py "xxxx" |}.
Definition right_fix : UseNewSyntax.fix_item :=
  {| UseNewSyntax.file_path := py "k:/app.html"; UseNewSyntax.line := 0;
     UseNewSyntax.col_start := 3; UseNewSyntax.col_end := 5;
     UseNewSyntax.old_class := py "bb"; UseNewSyntax.new_class := py "yy" |}.
Definition two_class_file : filesystem :=
  {[ py "k:/app.html" := py "aa bb" ++ [LF] ]}.

(** Indentation diagnostics of three lines, out of order. *)
Definition indent_entry (line_num expected found : Z) : FixIndentation.entry :=
  {| FixIndentation.line := JInt line_num;
     FixIndentation.expected := expected; FixIndentation.found := found;
     FixIndentation.message := [] |}.

(** A one-line file with two indentation diagnostics, the second for a
    line 7 that does not exist; and an edit that starts at the very end
    of the line [aa bb]. *)
Definition one_line_project : filesystem :=
  {[ py "src/a.js" := six_spaces_line ]}.
Definition one_line_group : list (str * list FixIndentation.entry) :=
  [(py "src/a.js", [indent_entry 1 4 6; indent_entry 7 0 2])].
Definition end_of_line_fix : UseNewSyntax.fix_item :=
  {| UseNewSyntax.file_path := py "k:/app.html"; UseNewSyntax.line := 0;
     UseNewSyntax.col_start := 5; UseNewSyntax.col_end := 5;
     UseNewSyntax.old_class := py "bb"; UseNewSyntax.new_class := py "yy" |}.
Definition beyond_last_line_fix : UseNewSyntax.fix_item :=
  {| UseNewSyntax.file_path := py "k:/app.html"; UseNewSyntax.line := 1;
     UseNewSyntax.col_start := 0; UseNewSyntax.col_end := 2;
     UseNewSyntax.old_class := py "aa"; UseNewSyntax.new_class := py "xxxx" |}.

(** Entries of an export: an ESLint finding of another rule, an indent
    finding whose message has another wording, an indent finding without
    a line number, and an empty object. *)
Definition eslint_problem (rule : str) (fields : list (str * json)) : json :=
  JDict ((py "code", JDict [(py "value", JStr rule)]) :: fields).
Definition other_rule_problem : json :=
  eslint_problem (py "semi") [(py "message", JStr (py "Missing semicolon."))].


(** A line whose class [a] is to be written [ab]. *)
Definition growing_file : filesystem := {[ py "app.html" := py "a b" ++ [LF] ]}.
Definition growing_fix : UseNewSyntax.fix_item :=
  {| UseNewSyntax.file_path := py "app.html"; UseNewSyntax.line := 0;
     UseNewSyntax.col_start := 0; UseNewSyntax.col_end := 1;
     UseNewSyntax.old_class := py "a"; UseNewSyntax.new_class := py "ab" |}.

Definition project_with_export : filesystem :=
  <[py "problems.json" := py "[...]"]> two_class_file.

(** The two-class line and a second line in a file with CR LF
    terminators, and what the applier leaves of it on a POSIX host. *)
Definition crlf_class_file : filesystem :=
  {[ py "k:/app.html" := py "aa bb" ++ [CR; LF] ++ py "cc" ++ [CR; LF] ]}.
Definition lf_class_file : filesystem :=
  {[ py "k:/app.html" := py "xxxx bb" ++ [LF] ++ py "cc" ++ [LF] ]}.

(** A CR LF file for the indentation fixer. *)
Definition crlf_indent_project : filesystem :=
  {[ py "src/a.js" := py "      x" ++ [CR; LF] ++ py "y" ++ [CR; LF] ]}.

(** Two diagnostics that name line 1: the first expects eight spaces
    where it found four, the second four where it found six. *)
Definition clashing_entries : list FixIndentation.entry :=
  [indent_entry 1 8 4; indent_entry 1 4 6].
Definition eight_spaces_line : str := py "        x" ++ [LF].

(** A line that ends with a lone CR, followed by a line of spaces. *)
Definition lone_cr_project : filesystem :=
  {[ py "src/a.js" :=
       py "a" ++ [CR] ++ py "  " ++ [LF] ++ py "    b" ++ [LF] ]}.
Definition lone_cr_entries : list FixIndentation.entry :=
  [indent_entry 2 0 2; indent_entry 3 2 4].

(** One diagnostic for each of two lines. *)
Definition distinct_entries : list FixIndentation.entry :=
  [indent_entry 1 4 6; indent_entry 2 2 0].


(** An export with indentation findings for two files, and its groups. *)
Definition indent_problem (resource : str) (line_num : Z) (message : str)
    : json :=
  eslint_problem (py "indent")
    [(py "resource", JStr resource);
     (py "message", JStr message);
     (py "startLineNumber", JInt line_num)].
Definition four_not_six : str :=
  py "Expected indentation of 4 spaces but found 6.".
Definition two_not_zero : str :=
  py "Expected indentation of 2 spaces but found 0.".
Definition two_file_export : list json :=
  [indent_problem (py "/K:/src/a.js") 1 four_not_six;
   other_rule_problem;
   indent_problem (py "/K:/src/b.js") 3 two_not_zero;
   indent_problem (py "/K:/src/a.js") 2 two_not_zero].

(** The two wordings of the canonical-class message. *)
Definition written_as_message : str :=
  py "The class `w-[100px]` can be written as `w-25`".
Definition arrow_message : str :=
  py "`flex-shrink-0`" ++ [SPACE; ARROW; SPACE] ++ py "`shrink-0`".

(** An export with no canonical-class suggestion, a loader that reads
    it, and a loader that reads the export holding [left_problem] only. *)
Definition loads_two_file_export (text : str) : option json :=
  Some (JList two_file_export).


(** A project for the line-ending converter: a script with CR LF
    endings, a file named [.env], a read-only style sheet, a dependency
    under [node_modules] and a source directory. *)
Definition crlf_script : ConvertCrlf.file :=
  {| ConvertCrlf.content := py "a" ++ [CR; LF] ++ py "b" ++ [CR; LF];
     ConvertCrlf.readable := true; ConvertCrlf.writable := true |}.
Definition lf_script : ConvertCrlf.file :=
  {| ConvertCrlf.content := py "a" ++ [LF] ++ py "b" ++ [LF];
     ConvertCrlf.readable := true; ConvertCrlf.writable := true |}.
Definition read_only_sheet : ConvertCrlf.file :=
  {| ConvertCrlf.content := py "p{}" ++ [CR; LF];
     ConvertCrlf.readable := true; ConvertCrlf.writable := false |}.
Definition crlf_project : ConvertCrlf.dir :=
  ConvertCrlf.Dir
    [(py "node_modules",
      ConvertCrlf.Dir [] [(py "dep.js", crlf_script)]);
     (py "src",
      ConvertCrlf.Dir [] [(py "main.py", crlf_script);
                          (py "notes", crlf_script);
                          (py "site.css", read_only_sheet)])]
    [(py "index.js", crlf_script); (py ".env", crlf_script)].

End Samples.

(** * Properties *)

(** ** The string primitives *)

Module PyFacts.
Import Py.

Lemma len_nonneg {A} (l : list A) : 0 ≤ len l.
Proof. unfold len. lia. Qed.

Lemma len_app {A} (l k : list A) : len (l ++ k) = len l + len k.
Proof. unfold len. rewrite length_app. lia. Qed.

Lemma startswith_spec p s :
  startswith p s = true ↔ ∃ post, s = p ++ post.
Proof.
  revert s. induction p as [|a p IH]; intros s; simpl.
  - split; [eauto|done].
  - destruct s as [|b s].
    + split; [done|]. intros [post Hpost]. discriminate.
    + rewrite andb_true_iff, N.eqb_eq, IH. split.
      * intros [-> [post ->]]. eauto.
      * intros [post Hpost]. simplify_eq. eauto.
Qed.

Lemma contains_spec old s :
  contains old s = true ↔ ∃ pre post, s = pre ++ old ++ post.
Proof.
  induction s as [|c s IH]; simpl.
  - rewrite orb_false_r, startswith_spec. split.
    + intros [post ->]. by exists [], post.
    + intros (pre & post & H). symmetry in H.
      apply app_eq_nil in H as [-> H]. apply app_eq_nil in H as [-> ->].
      by exists [].
  - rewrite orb_true_iff, startswith_spec, IH. split.
    + intros [[post ->]|(pre & post & ->)].
      * by exists [], post.
      * by exists (c :: pre), post.
    + intros ([|c' pre] & post & H); simpl in H.
      * left. eauto.
      * right. simplify_eq. eauto.
Qed.

Lemma lstrip_replicate c n s : lstrip c (replicate n c ++ s) = lstrip c s.
Proof. induction n as [|n IH]; simpl; [done|]. by rewrite N.eqb_refl. Qed.

Lemma lstrip_length c s : (length (lstrip c s) ≤ length s)%nat.
Proof.
  induction s as [|x s IH]; simpl; [done|].
  destruct (x =? c)%N; simpl; lia.
Qed.

Lemma lstrip_split c s :
  s = replicate (length s - length (lstrip c s)) c ++ lstrip c s.
Proof.
  induction s as [|x s IH]; simpl; [done|].
  destruct (N.eqb_spec x c) as [->|Hne].
  - pose proof (lstrip_length c s).
    replace (S (length s) - length (lstrip c s))%nat
      with (S (length s - length (lstrip c s))) by lia.
    simpl. by rewrite <- IH.
  - simpl. by rewrite Nat.sub_diag.
Qed.


Lemma lstrip_lstrip c s : lstrip c (lstrip c s) = lstrip c s.
Proof.
  induction s as [|x s IH]; simpl; [done|].
  destruct (N.eqb_spec x c) as [->|Hne]; [done|].
  simpl. by destruct (N.eqb_spec x c).
Qed.


End PyFacts.

(** ** The canonical-class applier *)

Module SyntaxFacts.
Import Py PyFacts UseNewSyntax.

Section Apply.
Variable plat : platform.

(** What [apply_fix] went through when it printed [Fixed]. *)
Lemma apply_fix_Fixed fs f fs' :
  apply_fix plat fs f = (fs', Fixed) →
  ∃ content line_content,
    let lines := splitlines (universal_newlines content) in
    fs !! file_path f = Some content ∧
    0 ≤ line f < len lines ∧
    lines !! Z.to_nat (line f) = Some line_content ∧
    col_start f < len line_content ∧
    col_end f ≤ len line_content ∧
    contains (old_class f)
      (slice line_content (col_start f) (col_end f)) = true ∧
    fs' = <[file_path f :=
              write_newlines plat
                (join LF (<[Z.to_nat (line f) :=
                             slice_to line_content (col_start f) ++
                             new_class f ++
                             slice_from line_content (col_end f)]> lines)
                 ++ [LF])]> fs.
Proof.
  unfold apply_fix. intros H.
  destruct (fs !! file_path f) as [content|] eqn:Hfile; [|by simplify_eq].
  set (lines := splitlines (universal_newlines content)) in *.
  destruct ((0 <=? line f) && (line f <? len lines)) eqn:Hline;
    [|by simplify_eq].
  apply andb_true_iff in Hline as [H0%Z.leb_le Hn%Z.ltb_lt].
  destruct (lines !! Z.to_nat (line f)) as [line_content|] eqn:Hlookup.
  2: { apply lookup_ge_None in Hlookup. unfold len in Hn. exfalso. lia. }
  simpl in H.
  destruct ((col_start f <? len line_content) &&
            (col_end f <=? len line_content)) eqn:Hcols; [|by simplify_eq].
  apply andb_true_iff in Hcols as [Hs%Z.ltb_lt He%Z.leb_le].
  destruct (contains _ _) eqn:Hin; [|by simplify_eq].
  simplify_eq. exists content, line_content. by repeat split.
Qed.


(** Every other message leaves the file system as it was. *)
Lemma apply_fix_skipped fs f :
  (apply_fix plat fs f).2 ≠ Fixed → (apply_fix plat fs f).1 = fs.
Proof.
  unfold apply_fix. repeat case_match; simpl; done.
Qed.

End Apply.

(** Slices with bounds inside the string. *)
Lemma clamp_inside n i : 0 ≤ i ≤ n → clamp n i = Z.to_nat i.
Proof. unfold clamp. intros ?. destruct (Z.ltb_spec i 0); lia. Qed.





Lemma slice_from_suffix a b : slice_from (a ++ b) (len a) = b.
Proof.
  pose proof (len_nonneg a). pose proof (len_nonneg b).
  unfold slice_from. rewrite clamp_inside by (rewrite len_app; lia).
  unfold len. rewrite Nat2Z.id. by rewrite drop_app_length.
Qed.

End SyntaxFacts.

(** ** Exceptions *)

Lemma bind_Ok_inv {A B} (m : result A) (f : A → result B) b :
  m ≫= f = Ok b → ∃ a, m = Ok a ∧ f a = Ok b.
Proof. destruct m as [a|e]; [|done]. intros ?. by exists a. Qed.

Lemma bind_Raise_inv {A B} (m : result A) (f : A → result B) e :
  m ≫= f = Raise e → m = Raise e ∨ ∃ a, m = Ok a ∧ f a = Raise e.
Proof. destruct m as [a|e']; intros H; [right; by exists a|left].
  cbv in H. by simplify_eq.
Qed.

(** ** The indentation fixer *)

Module IndentFacts.
Import Py PyFacts FixIndentation.

Lemma leading_spaces_nonneg l : 0 ≤ leading_spaces l.
Proof.
  unfold leading_spaces, len. pose proof (lstrip_length SPACE l). lia.
Qed.

(** A line is its leading spaces followed by the rest. *)
Lemma line_split l : l = times SPACE (leading_spaces l) ++ lstrip SPACE l.
Proof.
  unfold times, leading_spaces, len. pose proof (lstrip_length SPACE l).
  rewrite <- Nat2Z.inj_sub, Nat2Z.id by done. apply lstrip_split.
Qed.

Lemma leading_spaces_times n l :
  0 ≤ n → leading_spaces (times SPACE n ++ lstrip SPACE l) = n.
Proof.
  intros ?. unfold leading_spaces, times.
  rewrite lstrip_replicate, lstrip_lstrip, len_app.
  unfold len at 1. rewrite length_replicate. lia.
Qed.

Lemma fix_line_indentation_match l expected found :
  leading_spaces l = found →
  fix_line_indentation l expected found =
    times SPACE expected ++ lstrip SPACE l.
Proof. intros ?. unfold fix_line_indentation. by case_decide. Qed.

Lemma fix_line_indentation_stale l expected found :
  leading_spaces l ≠ found → fix_line_indentation l expected found = l.
Proof. intros ?. unfold fix_line_indentation. by case_decide. Qed.

(** Only the leading spaces change. *)
Lemma lstrip_fix_line_indentation l expected found :
  lstrip SPACE (fix_line_indentation l expected found) = lstrip SPACE l.
Proof.
  unfold fix_line_indentation, times. case_decide; [|done].
  by rewrite lstrip_replicate, lstrip_lstrip.
Qed.

(** Fixing a fixed line again changes nothing. *)
Lemma fix_line_indentation_idemp l expected found :
  let l' := fix_line_indentation l expected found in
  fix_line_indentation l' expected found = l'.
Proof.
  simpl. destruct (decide (leading_spaces l = found)) as [Hl|Hl].
  - rewrite (fix_line_indentation_match l) by done.
    unfold fix_line_indentation. case_decide; [|done].
    unfold times. by rewrite lstrip_replicate, lstrip_lstrip.
  - by rewrite !(fix_line_indentation_stale l).
Qed.

(** One edit: the line it names is rewritten in place, or nothing is. *)
Lemma fix_problem_Ok p lines modified lines' modified' :
  fix_problem p (lines, modified) = Ok (lines', modified') →
  ∃ line_num, line_number p = Some line_num ∧
    ((lines' = lines ∧ modified' = modified) ∨
     (1 ≤ line_num ≤ len lines ∧ modified' = true ∧
      ∃ l, lines !! Z.to_nat (line_num - 1) = Some l ∧
           fix_line_indentation l (expected p) (found p) ≠ l ∧
           lines' = <[Z.to_nat (line_num - 1) :=
                        fix_line_indentation l (expected p) (found p)]> lines)).
Proof.
  unfold fix_problem. destruct (line_number p) as [n|]; [|done].
  intros H. exists n. split; [done|].
  destruct ((1 <=? n) && (n <=? len lines)) eqn:Hrange;
    [|left; by simplify_eq].
  apply andb_true_iff in Hrange as [H1%Z.leb_le Hn%Z.leb_le].
  destruct (lines !! Z.to_nat (n - 1)) as [l|] eqn:Hl.
  2: { apply lookup_ge_None in Hl. unfold len in Hn. lia. }
  simpl in H. case_decide; simplify_eq; [right|left; done].
  repeat split; try done. by exists l.
Qed.

(** An edit whose line exists rewrites that line; the flag is raised when
    the line changed. *)
Lemma fix_problem_in_range p lines modified line_num l :
  line_number p = Some line_num →
  1 ≤ line_num →
  lines !! Z.to_nat (line_num - 1) = Some l →
  let fixed_line := fix_line_indentation l (expected p) (found p) in
  fix_problem p (lines, modified) =
    Ok (<[Z.to_nat (line_num - 1) := fixed_line]> lines,
        if decide (fixed_line ≠ l) then true else modified).
Proof.
  intros Hn H1 Hl. unfold fix_problem. rewrite Hn, Hl. simpl.
  pose proof (lookup_lt_Some _ _ _ Hl) as Hlt.
  replace ((1 <=? line_num) && (line_num <=? len lines)) with true.
  2: { symmetry. apply andb_true_iff. unfold len. split; lia. }
  case_decide as Hfixed; [done|].
  rewrite Hfixed.
  by rewrite list_insert_id.
Qed.

(** An edit whose line does not exist changes nothing. *)
Lemma fix_problem_out_of_range p lines modified line_num :
  line_number p = Some line_num →
  ¬ (1 ≤ line_num ≤ len lines) →
  fix_problem p (lines, modified) = Ok (lines, modified).
Proof.
  intros Hn Hout. unfold fix_problem. rewrite Hn.
  replace ((1 <=? line_num) && (line_num <=? len lines)) with false; [done|].
  symmetry. apply andb_false_iff. lia.
Qed.

Lemma fix_problem_length p lines modified lines' modified' :
  fix_problem p (lines, modified) = Ok (lines', modified') →
  length lines' = length lines.
Proof.
  intros (n & _ & [[-> _]|(_ & _ & l & _ & _ & ->)])%fix_problem_Ok; [done|].
  by rewrite length_insert.
Qed.

Lemma fix_loop_length ps lines modified lines' modified' :
  fix_loop ps (lines, modified) = Ok (lines', modified') →
  length lines' = length lines.
Proof.
  revert lines modified. induction ps as [|p ps IH]; intros lines modified H.
  - by simplify_eq/=.
  - cbn [fix_loop] in H. apply bind_Ok_inv in H as ([l1 m1] & Hp & H).
    apply IH in H. apply fix_problem_length in Hp. congruence.
Qed.

End IndentFacts.

(** ** The order of the indentation edits *)

Module OrderFacts.
Import Py PyFacts FixIndentation IndentFacts.

Lemma insert_desc_perm p l : insert_desc p l ≡ₚ p :: l.
Proof.
  induction l as [|q l IH]; simpl; [done|].
  case_match; [|done]. rewrite IH. apply Permutation_swap.
Qed.

Lemma sort_perm l : foldr insert_desc [] l ≡ₚ l.
Proof.
  induction l as [|p l IH]; simpl; [done|].
  by rewrite insert_desc_perm, IH.
Qed.

Lemma insert_desc_sorted p l :
  StronglySorted (λ a b, key b ≤ key a) l →
  StronglySorted (λ a b, key b ≤ key a) (insert_desc p l).
Proof.
  induction 1 as [|q l Hl IH Hq]; simpl.
  - repeat constructor.
  - destruct (Z.ltb_spec (key p) (key q)).
    + constructor; [done|].
      rewrite insert_desc_perm. constructor; [lia|done].
    + constructor; [by constructor|].
      constructor; [done|]. eapply Forall_impl; [done|].
      simpl. intros. lia.
Qed.

Lemma sort_sorted l :
  StronglySorted (λ a b, key b ≤ key a) (foldr insert_desc [] l).
Proof.
  induction l as [|p l IH]; simpl; [constructor|].
  by apply insert_desc_sorted.
Qed.



(** When the sort returns, it returns the insertion sort, and every key
    it compared is an int. *)
Lemma sorted_by_line_Ok problems sorted_problems :
  sorted_by_line problems = Ok sorted_problems →
  sorted_problems = foldr insert_desc [] problems ∧
  ((2 ≤ length problems)%nat →
   Forall (λ p, is_Some (line_number p)) problems).
Proof.
  unfold sorted_by_line. intros H.
  destruct (bool_decide (2 ≤ length problems)%nat) eqn:Hlen; simpl in H.
  - destruct (existsb _ problems) eqn:Hex; [done|]. simplify_eq.
    split; [done|]. intros _. apply Forall_forall. intros p Hp.
    destruct (line_number p) eqn:Hkey; [done|].
    assert (existsb (λ p, bool_decide (line_number p = None)) problems
            = true) as Hex'; [|congruence].
    apply existsb_exists. exists p.
    split; [by apply list_elem_of_In|by apply bool_decide_eq_true].
  - simplify_eq. split; [done|]. apply bool_decide_eq_false in Hlen. lia.
Qed.

End OrderFacts.

(** ** Edits that name no line of the file *)

Module SkipFacts.
Import Py PyFacts FixIndentation IndentFacts OrderFacts.

Abbreviation descending := (StronglySorted (λ a b : entry, key b ≤ key a)).

(** Inserting into a sorted list goes the same way with or without an
    element [p] of that list. *)
Lemma insert_desc_around x front p back :
  descending (front ++ p :: back) →
  ∃ front' back',
    insert_desc x (front ++ p :: back) = front' ++ p :: back' ∧
    insert_desc x (front ++ back) = front' ++ back'.
Proof.
  induction front as [|y front IH]; simpl; intros Hsorted.
  - apply StronglySorted_cons in Hsorted as [Hp _].
    destruct (Z.ltb_spec (key x) (key p)).
    + by exists [], (insert_desc x back).
    + exists [x], back. split; [done|].
      destruct back as [|q back]; [done|]. simpl.
      apply Forall_cons in Hp as [Hq _].
      destruct (Z.ltb_spec (key x) (key q)); [lia|done].
  - apply StronglySorted_cons in Hsorted as [_ Hsorted].
    destruct (Z.ltb_spec (key x) (key y)).
    + destruct (IH Hsorted) as (front' & back' & -> & ->).
      by exists (y :: front'), back'.
    + by exists (x :: y :: front), back.
Qed.

(** Sorting with an entry and without it gives the same list around that
    entry. *)
Lemma sort_around ps1 p ps2 :
  ∃ front back,
    foldr insert_desc [] (ps1 ++ p :: ps2) = front ++ p :: back ∧
    foldr insert_desc [] (ps1 ++ ps2) = front ++ back.
Proof.
  induction ps1 as [|x ps1 (front & back & Hwith & Hwithout)]; simpl.
  - pose proof (sort_sorted ps2) as Hsorted.
    generalize dependent (foldr insert_desc [] ps2). intros l Hsorted.
    induction Hsorted as [|q l Hl IH Hq]; simpl.
    + by exists [], [].
    + destruct (Z.ltb_spec (key p) (key q)).
      * destruct IH as (front & back & -> & ->).
        by exists (q :: front), back.
      * by exists [], (q :: l).
  - rewrite Hwith, Hwithout. apply insert_desc_around.
    rewrite <- Hwith. apply sort_sorted.
Qed.

Lemma fix_loop_app ps1 ps2 st :
  fix_loop (ps1 ++ ps2) st = fix_loop ps1 st ≫= fix_loop ps2.
Proof.
  revert st. induction ps1 as [|p ps1 IH]; intros st; simpl; [done|].
  destruct (fix_problem p st) as [st'|e]; simpl; [apply IH|done].
Qed.

(** The loop without an entry whose line does not exist. *)
Lemma fix_loop_skip front p back lines modified line_num :
  line_number p = Some line_num →
  ¬ (1 ≤ line_num ≤ len lines) →
  fix_loop (front ++ p :: back) (lines, modified)
    = fix_loop (front ++ back) (lines, modified).
Proof.
  intros Hn Hout. rewrite !fix_loop_app.
  destruct (fix_loop front (lines, modified)) as [[lines' modified']|e]
    eqn:Hfront; [|done].
  change (fix_loop (p :: back) (lines', modified')
          = fix_loop back (lines', modified')).
  cbn [fix_loop]. apply fix_loop_length in Hfront.
  rewrite (fix_problem_out_of_range _ _ _ line_num); [done..|].
  unfold len in *. by rewrite Hfront.
Qed.

(** An entry whose key is not an int makes the [try] block raise. *)
Lemma fix_lines_not_int lines problems p :
  p ∈ problems → line_number p = None →
  fix_lines lines problems = Raise TypeError.
Proof.
  intros Hp Hkey. unfold fix_lines, sorted_by_line.
  assert (existsb (λ p, bool_decide (line_number p = None)) problems = true)
    as ->.
  { apply existsb_exists. exists p.
    split; [by apply list_elem_of_In|by apply bool_decide_eq_true]. }
  case_bool_decide as Hlen; [done|]. simpl.
  destruct problems as [|q [|q' problems]]; simpl in *; [|..|lia].
  - by apply elem_of_nil in Hp.
  - apply list_elem_of_singleton in Hp as <-.
    unfold fix_problem. by rewrite Hkey.
Qed.

Lemma fix_lines_all_int lines problems :
  Forall (λ p, is_Some (line_number p)) problems →
  fix_lines lines problems
    = fix_loop (foldr insert_desc [] problems) (lines, false).
Proof.
  intros Hints. unfold fix_lines, sorted_by_line.
  assert (existsb (λ p, bool_decide (line_number p = None)) problems = false)
    as ->; [|by rewrite andb_false_r].
  apply not_true_is_false. intros (p & Hp & Hnone)%existsb_exists.
  apply bool_decide_eq_true in Hnone. rewrite Forall_forall in Hints.
  destruct (Hints p) as [n Hn]; [by apply list_elem_of_In|congruence].
Qed.

(** The [try] block does the same with and without an entry whose line
    does not exist. *)
Lemma fix_lines_skip lines ps1 p ps2 line_num :
  line_number p = Some line_num →
  ¬ (1 ≤ line_num ≤ len lines) →
  fix_lines lines (ps1 ++ p :: ps2) = fix_lines lines (ps1 ++ ps2).
Proof.
  intros Hn Hout.
  destruct (decide (Forall (λ p, is_Some (line_number p)) (ps1 ++ ps2)))
    as [Hints|Hnot].
  - rewrite !fix_lines_all_int; [|done|].
    + destruct (sort_around ps1 p ps2) as (front & back & -> & ->).
      by eapply fix_loop_skip.
    + apply Forall_app in Hints as [H1 H2].
      apply Forall_app. split; [done|]. by constructor.
  - apply not_Forall_Exists in Hnot; [|apply _].
    apply Exists_exists in Hnot as (q & Hq & Hkey).
    assert (line_number q = None) as Hnone.
    { destruct (line_number q) eqn:E; [|done]. destruct Hkey.
      rewrite E. by eexists. }
    rewrite (fix_lines_not_int _ (ps1 ++ ps2) q) by done.
    apply (fix_lines_not_int _ _ q); [|done].
    apply elem_of_app in Hq as [?|?]; apply elem_of_app; [by left|].
    right. by apply elem_of_cons; right.
Qed.

End SkipFacts.

(** ** Entries the scripts skip *)

Module EntryFacts.
Import Py PyFacts FixIndentation.




End EntryFacts.

(** ** Lines and their terminators *)

Module LineFacts.
Import Py PyFacts FixIndentation IndentFacts.

Lemma str_length_ind (P : str → Prop) :
  (∀ s, (∀ t, (length t < length s)%nat → P t) → P s) → ∀ s, P s.
Proof.
  intros Hstep s. remember (length s) as n eqn:Hn.
  revert s Hn. induction n as [n IH] using lt_wf_ind. intros s ->.
  apply Hstep. intros t Ht. by apply (IH (length t)).
Qed.

Lemma readlines_cons c s :
  readlines (c :: s) =
    if (c =? LF)%N then [c] :: readlines s
    else if (c =? CR)%N then
      match s with
      | c' :: s'' =>
          if (c' =? LF)%N then [c; c'] :: readlines s''
          else [c] :: readlines s
      | [] => [[c]]
      end
    else
      match readlines s with
      | [] => [[c]]
      | l :: ls => (c :: l) :: ls
      end.
Proof. done. Qed.

Lemma readlines_space s :
  readlines (SPACE :: s) =
    match readlines s with
    | [] => [[SPACE]]
    | l :: ls => (SPACE :: l) :: ls
    end.
Proof. done. Qed.

Lemma readlines_nil_inv s : readlines s = [] → s = [].
Proof.
  destruct s as [|c s]; [done|]. rewrite readlines_cons.
  repeat case_match; done.
Qed.

(** Leading spaces do not matter to what a line is. *)
Lemma single_line_space s : single_line (SPACE :: s) ↔ single_line s.
Proof.
  unfold single_line. rewrite readlines_space. split.
  - intros [H|?]; [|done].
    destruct (readlines s) as [|l ls] eqn:Hs.
    + right. by apply readlines_nil_inv.
    + left. by simplify_eq.
  - intros [->| ->]; by left.
Qed.

Lemma single_line_lstrip l : single_line l ↔ single_line (lstrip SPACE l).
Proof.
  induction l as [|c l IH]; simpl; [done|].
  destruct (N.eqb_spec c SPACE) as [->|]; [|done].
  by rewrite single_line_space.
Qed.

Lemma last_space s : last (SPACE :: s) = Some LF ↔ last s = Some LF.
Proof. destruct s; [|done]. split; intros; simplify_eq. Qed.

Lemma last_lstrip l : last l = Some LF ↔ last (lstrip SPACE l) = Some LF.
Proof.
  induction l as [|c l IH]; simpl lstrip; [done|].
  destruct (N.eqb_spec c SPACE) as [->|]; [|done].
  by rewrite last_space.
Qed.



(** Every line read is a single line. *)
Lemma readlines_single s : Forall single_line (readlines s).
Proof.
  induction s as [[|c s] IH] using str_length_ind; [constructor|].
  rewrite readlines_cons.
  destruct (N.eqb_spec c LF) as [->|Hlf].
  { constructor; [by left|]. apply IH. simpl. lia. }
  destruct (N.eqb_spec c CR) as [->|Hcr].
  - destruct s as [|c' s]; [repeat constructor; by left|].
    destruct (N.eqb_spec c' LF) as [->|Hlf'].
    + constructor; [by left|]. apply IH. simpl. lia.
    + constructor; [by left|]. apply IH. simpl. lia.
  - specialize (IH s ltac:(simpl; lia)).
    assert (∀ l, single_line l → single_line (c :: l)) as Hc.
    { intros l Hl. left. rewrite readlines_cons.
      destruct (N.eqb_spec c LF); [done|]. destruct (N.eqb_spec c CR); [done|].
      by destruct Hl as [->| ->]. }
    destruct (readlines s) as [|l ls].
    + constructor; [|done]. apply (Hc []). by right.
    + apply Forall_cons in IH as [Hl Hls]. constructor; [by apply Hc|done].
Qed.

(** In a text without lone CRs every line but the last ends with LF. *)
Lemma readlines_ends_LF s i l :
  no_lone_cr s = true →
  readlines s !! i = Some l → (S i < length (readlines s))%nat →
  last l = Some LF.
Proof.
  revert i l. induction s as [[|c s] IH] using str_length_ind;
    intros i l Hcr; [done|].
  cbn [no_lone_cr] in Hcr. apply andb_true_iff in Hcr as [Hc Hs].
  rewrite readlines_cons.
  destruct (N.eqb_spec c LF) as [->|Hlf].
  { destruct i as [|i]; simpl.
    - intros. by simplify_eq.
    - intros ??. apply (IH s) with i; [simpl|..]; done || lia. }
  destruct (N.eqb_spec c CR) as [->|Hncr].
  - destruct s as [|c' s]; [done|].
    change (CR =? CR)%N with true in Hc. apply N.eqb_eq in Hc as ->.
    change (LF =? LF)%N with true.
    cbn [no_lone_cr] in Hs. apply andb_true_iff in Hs as [_ Hs].
    destruct i as [|i]; simpl.
    + intros. by simplify_eq.
    + intros ??. apply (IH s) with i; [simpl|..]; done || lia.
  - pose proof (IH s ltac:(simpl; lia)) as IHs.
    destruct (readlines s) as [|l' ls] eqn:Hread;
      [intros _ Hlen; simpl in Hlen; lia|].
    destruct i as [|i]; simpl.
    + intros ? Hlen. simplify_eq.
      assert (last l' = Some LF) as Hlast
        by (apply (IHs 0%nat); simpl; done || lia).
      destruct l'; [done|]. done.
    + intros ??. apply (IHs (S i)); simpl; done || lia.
Qed.

(** [readlines] breaks after an LF, whatever follows. *)
Lemma readlines_app_LF a s :
  readlines ((a ++ [LF]) ++ s) = readlines (a ++ [LF]) ++ readlines s.
Proof.
  induction a as [[|c a] IH] using str_length_ind; [done|].
  cbn [app]. rewrite !readlines_cons.
  destruct (N.eqb_spec c LF) as [->|Hlf].
  { cbn [app]. f_equal. apply IH. simpl. lia. }
  destruct (N.eqb_spec c CR) as [->|Hcr].
  - destruct a as [|c' a]; [done|]. cbn [app].
    destruct (N.eqb_spec c' LF) as [->|Hlf'].
    + cbn [app]. f_equal. apply IH. simpl. lia.
    + cbn [app]. f_equal. apply (IH (c' :: a)). simpl. lia.
  - rewrite IH by (simpl; lia).
    destruct (readlines (a ++ [LF])) as [|l ls] eqn:Hread; [|done].
    apply readlines_nil_inv in Hread. by destruct a.
Qed.

End LineFacts.

(** ** A second pass of the indentation fixer *)

Module PassFacts.
Import Py PyFacts FixIndentation IndentFacts OrderFacts SkipFacts LineFacts.

(** The lines read back from the lines written: the same lines, but for
    a last line that an edit emptied. *)
Lemma readlines_concat lines :
  Forall single_line lines →
  (∀ i l, lines !! i = Some l → (S i < length lines)%nat →
          last l = Some LF) →
  ∃ lines', readlines (concat lines) = lines' ∧
            (lines = lines' ∨ lines = lines' ++ [[]]).
Proof.
  induction lines as [|l lines IH]; intros Hsingle Hlast.
  - exists []. by split; [|left].
  - apply Forall_cons in Hsingle as [Hl Hsingle].
    destruct lines as [|l2 lines].
    + cbn [concat]. rewrite app_nil_r. destruct Hl as [Hl| ->].
      * exists [l]. by split; [|left].
      * exists []. by split; [|right].
    + assert (last l = Some LF) as Hend by (apply (Hlast 0%nat); simpl; done || lia).
      apply last_Some in Hend as [a ->].
      destruct Hl as [Hl|Hl]; [|by destruct a].
      destruct IH as (lines' & Hread & Hlines'); [done|..].
      { intros i l Hi Hlen. apply (Hlast (S i)); simpl in *; done || lia. }
      exists ((a ++ [LF]) :: lines'). split.
      * change (concat ((a ++ [LF]) :: l2 :: lines))
          with ((a ++ [LF]) ++ concat (l2 :: lines)).
        by rewrite readlines_app_LF, Hl, Hread.
      * destruct Hlines' as [->| ->]; [by left|by right].
Qed.

Lemma same_rest_refl (lines : list str) :
  Forall2 (λ l l', lstrip SPACE l' = lstrip SPACE l) lines lines.
Proof. induction lines; by constructor. Qed.

(** An edit keeps every line's text after its leading spaces. *)
Lemma fix_problem_same_rest p lines modified lines' modified' :
  fix_problem p (lines, modified) = Ok (lines', modified') →
  Forall2 (λ l l', lstrip SPACE l' = lstrip SPACE l) lines lines'.
Proof.
  intros (n & _ & [[-> _]|(_ & _ & l & Hl & _ & ->)])%fix_problem_Ok.
  - apply same_rest_refl.
  - apply Forall2_same_length_lookup_2; [by rewrite length_insert|].
    intros i l1 l2 H1 H2.
    destruct (decide (i = Z.to_nat (n - 1))) as [->|Hne].
    + rewrite list_lookup_insert_eq in H2 by (by eapply lookup_lt_Some).
      simplify_eq. apply lstrip_fix_line_indentation.
    + rewrite list_lookup_insert_ne in H2 by done. by simplify_eq.
Qed.

Lemma fix_loop_same_rest ps lines modified lines' modified' :
  fix_loop ps (lines, modified) = Ok (lines', modified') →
  Forall2 (λ l l', lstrip SPACE l' = lstrip SPACE l) lines lines'.
Proof.
  revert lines modified. induction ps as [|p ps IH]; intros lines modified H.
  - simplify_eq/=. apply same_rest_refl.
  - cbn [fix_loop] in H. apply bind_Ok_inv in H as ([l1 m1] & Hp & H).
    apply fix_problem_same_rest in Hp. apply IH in H.
    eapply Forall2_trans; [|done..]. simpl. intros ??? -> ->. done.
Qed.

(** When the loop returns, every key was an int. *)
Lemma fix_loop_ints ps st st' :
  fix_loop ps st = Ok st' → Forall (λ p, is_Some (line_number p)) ps.
Proof.
  revert st. induction ps as [|p ps IH]; intros st H; [constructor|].
  cbn [fix_loop] in H. apply bind_Ok_inv in H as (st1 & Hp & H).
  constructor; [|by eapply IH].
  destruct st as [lines modified], st1 as [lines1 modified1].
  apply fix_problem_Ok in Hp as (n & -> & _). by eexists.
Qed.

(** A line no edit names is left alone. *)
Lemma fix_loop_untouched ps lines modified lines' modified' i :
  fix_loop ps (lines, modified) = Ok (lines', modified') →
  (∀ q n, q ∈ ps → line_number q = Some n → 1 ≤ n → Z.to_nat (n - 1) ≠ i) →
  lines' !! i = lines !! i.
Proof.
  revert lines modified. induction ps as [|p ps IH];
    intros lines modified H Hother.
  - by simplify_eq/=.
  - cbn [fix_loop] in H. apply bind_Ok_inv in H as ([l1 m1] & Hp & H).
    rewrite (IH _ _ H).
    2: { intros q n Hq. apply Hother. by apply elem_of_cons; right. }
    apply fix_problem_Ok in Hp
      as (n & Hn & [[-> _]|(Hrange & _ & l & _ & _ & ->)]); [done|].
    apply list_lookup_insert_ne. apply (Hother p); [|done|lia].
    by apply elem_of_cons; left.
Qed.

(** With one edit per line, the line an edit names ends as that edit
    leaves it. *)
Lemma fix_loop_touched ps lines modified lines' modified' p n l :
  NoDup (line_number <$> ps) →
  p ∈ ps → line_number p = Some n → 1 ≤ n →
  lines !! Z.to_nat (n - 1) = Some l →
  fix_loop ps (lines, modified) = Ok (lines', modified') →
  lines' !! Z.to_nat (n - 1)
    = Some (fix_line_indentation l (expected p) (found p)).
Proof.
  revert lines modified. induction ps as [|q ps IH];
    intros lines modified Hdup Hp Hn H1 Hl H.
  { by apply elem_of_nil in Hp. }
  rewrite fmap_cons in Hdup. apply NoDup_cons in Hdup as [Hq Hdup].
  cbn [fix_loop] in H. apply bind_Ok_inv in H as ([l1 m1] & Hstep & H).
  apply elem_of_cons in Hp as [->|Hp].
  - rewrite (fix_problem_in_range _ _ _ n l) in Hstep by done.
    simplify_eq. rewrite (fix_loop_untouched _ _ _ _ _ _ H).
    + apply list_lookup_insert_eq. by eapply lookup_lt_Some.
    + intros q' n' Hq' Hn' H1' Heq. apply Hq.
      apply list_elem_of_fmap. exists q'. split; [|done].
      rewrite Hn, Hn'. f_equal. lia.
  - apply (IH l1 m1); try done.
    apply fix_problem_Ok in Hstep
      as (nq & Hnq & [[-> _]|(Hrange & _ & lq & _ & _ & ->)]); [done|].
    rewrite list_lookup_insert_ne; [done|].
    intros Heq. apply Hq. apply list_elem_of_fmap. exists p.
    split; [|done]. rewrite Hn, Hnq. f_equal. lia.
Qed.

(** Edits that would each leave their line as it is change nothing. *)
Lemma fix_loop_stable ps lines modified :
  Forall (λ p, is_Some (line_number p)) ps →
  (∀ p n l, p ∈ ps → line_number p = Some n → 1 ≤ n →
            lines !! Z.to_nat (n - 1) = Some l →
            fix_line_indentation l (expected p) (found p) = l) →
  fix_loop ps (lines, modified) = Ok (lines, modified).
Proof.
  induction 1 as [|p ps [n Hn] _ IH]; intros Hstable; [done|].
  cbn [fix_loop].
  assert (fix_problem p (lines, modified) = Ok (lines, modified)) as ->.
  { destruct (decide (1 ≤ n ≤ len lines)) as [Hrange|Hout].
    - destruct (lines !! Z.to_nat (n - 1)) as [l|] eqn:Hl.
      2: { apply lookup_ge_None in Hl. unfold len in Hrange. lia. }
      rewrite (fix_problem_in_range _ _ _ n l) by (done || lia).
      rewrite (Hstable p n l); [|by apply elem_of_cons; left|done|lia|done].
      rewrite list_insert_id by done. by case_decide.
    - by apply (fix_problem_out_of_range _ _ _ n). }
  apply IH. intros q nq l Hq. apply Hstable. by apply elem_of_cons; right.
Qed.

(** The lines of a text without lone CRs, once edited, read back as
    themselves, and a second pass over them changes nothing. *)
Lemma second_pass content problems lines1 modified1 :
  no_lone_cr content = true →
  NoDup (line_number <$> problems) →
  fix_lines (readlines content) problems = Ok (lines1, modified1) →
  ∃ lines2,
    fix_lines (readlines (concat lines1)) problems = Ok (lines2, false).
Proof.
  intros Hcr Hdup H. unfold fix_lines in H.
  apply bind_Ok_inv in H as (sorted_problems & Hsort & Hloop).
  apply sorted_by_line_Ok in Hsort as [-> _].
  set (sorted_problems := foldr insert_desc [] problems) in *.
  pose proof (fix_loop_ints _ _ _ Hloop) as Hints.
  pose proof (fix_loop_same_rest _ _ _ _ _ Hloop) as Hrest.
  pose proof (Forall2_length _ _ _ Hrest) as Hlen.
  assert (NoDup (line_number <$> sorted_problems)) as Hdup'.
  { unfold sorted_problems. by rewrite sort_perm. }
  destruct (readlines_concat lines1) as (lines' & Hread & Hlines').
  { apply Forall_lookup. intros i l' Hl'.
    destruct (Forall2_lookup_r _ _ _ _ _ Hrest Hl') as (l & Hl & Heq).
    apply (proj2 (single_line_lstrip l')). rewrite Heq.
    apply (proj1 (single_line_lstrip l)).
    pose proof (readlines_single content) as Hsingle.
    by eapply (proj1 (Forall_lookup _ _) Hsingle). }
  { intros i l' Hl' Hi.
    destruct (Forall2_lookup_r _ _ _ _ _ Hrest Hl') as (l & Hl & Heq).
    apply (proj2 (last_lstrip l')). rewrite Heq.
    apply (proj1 (last_lstrip l)).
    apply (readlines_ends_LF content i); [done..|lia]. }
  exists lines'. rewrite Hread. rewrite fix_lines_all_int.
  2: { eapply Forall_forall. intros p Hp.
       rewrite Forall_forall in Hints. apply Hints.
       unfold sorted_problems. by rewrite sort_perm. }
  apply fix_loop_stable; [done|].
  intros p n l Hp Hn H1 Hl.
  assert (lines1 !! Z.to_nat (n - 1) = Some l) as Hl1.
  { destruct Hlines' as [->| ->]; [done|]. by apply lookup_app_l_Some. }
  destruct (Forall2_lookup_r _ _ _ _ _ Hrest Hl1) as (l0 & Hl0 & _).
  pose proof (fix_loop_touched _ _ _ _ _ p n l0 Hdup' Hp Hn H1 Hl0 Hloop)
    as Htouched.
  rewrite Hl1 in Htouched. simplify_eq.
  apply fix_line_indentation_idemp.
Qed.

End PassFacts.

(** ** What the canonical-class applier writes *)

Module WriteFacts.
Import Py PyFacts UseNewSyntax SyntaxFacts LineFacts.

Lemma splitlines_cons c s :
  splitlines (c :: s) =
    if is_linebreak c then
      [] :: match s with
            | c' :: s'' =>
                if (c =? CR)%N && (c' =? LF)%N then splitlines s''
                else splitlines s
            | [] => []
            end
    else
      match splitlines s with
      | [] => [[c]]
      | l :: ls => (c :: l) :: ls
      end.
Proof. done. Qed.

(** No line of [splitlines] holds a line-break character. *)
Lemma splitlines_no_break s :
  Forall (Forall (λ c, is_linebreak c = false)) (splitlines s).
Proof.
  induction s as [[|c s] IH] using str_length_ind; [constructor|].
  rewrite splitlines_cons. destruct (is_linebreak c) eqn:Hc.
  - constructor; [constructor|]. destruct s as [|c' s]; [constructor|].
    destruct ((c =? CR)%N && (c' =? LF)%N); apply IH; simpl; lia.
  - specialize (IH s ltac:(simpl; lia)).
    destruct (splitlines s) as [|l ls]; [by repeat constructor|].
    apply Forall_cons in IH as [Hl Hls]. by repeat constructor.
Qed.

Lemma join_no_cr (lines : list str) :
  Forall (λ l, CR ∉ l) lines → CR ∉ join LF lines.
Proof.
  induction 1 as [|l lines Hl _ IH]; [by apply not_elem_of_nil|].
  destruct lines as [|l2 lines]; [done|].
  change (join LF (l :: l2 :: lines)) with (l ++ LF :: join LF (l2 :: lines)).
  rewrite elem_of_app, elem_of_cons. intros [?|[?|?]]; done.
Qed.


End WriteFacts.

(** * The claims *)

Section Claims.
Import Py PyFacts SyntaxFacts IndentFacts OrderFacts SkipFacts EntryFacts.
Import LineFacts PassFacts WriteFacts.
Import FixIndentation UseNewSyntax Samples.

(** ** C1: the check before an edit *)

(** C1, as the code has it. [apply_fix] applies an edit only if the old
    text occurs somewhere inside the span [col_start, col_end) of the
    current line (a substring test, not an equality); if it does not occur
    the edit is skipped and no file changes. The indentation edit is made
    only if the line's count of leading spaces equals [found]; otherwise
    the line is returned as it is. *)
Theorem edit_applied_only_if_old_text_in_span :
  (∀ plat fs f fs',
     apply_fix plat fs f = (fs', Fixed) →
     ∃ content line_content pre post,
       fs !! file_path f = Some content ∧
       splitlines (universal_newlines content) !! Z.to_nat (line f)
         = Some line_content ∧
       slice line_content (col_start f) (col_end f)
         = pre ++ old_class f ++ post) ∧
  (∀ plat fs f content line_content,
     fs !! file_path f = Some content →
     0 ≤ line f →
     splitlines (universal_newlines content) !! Z.to_nat (line f)
       = Some line_content →
     (¬ ∃ pre post, slice line_content (col_start f) (col_end f)
                      = pre ++ old_class f ++ post) →
     (apply_fix plat fs f).1 = fs ∧ (apply_fix plat fs f).2 ≠ Fixed) ∧
  (∀ l expected found,
     leading_spaces l ≠ found → fix_line_indentation l expected found = l).
Proof.
  split; [|split].
  - intros plat fs f fs' H.
    apply apply_fix_Fixed in H
      as (content & lc & Hfile & _ & Hline & _ & _ & Hin & _).
    apply contains_spec in Hin as (pre & post & Hspan).
    by exists content, lc, pre, post.
  - intros plat fs f content lc Hfile H0 Hline Hnot.
    assert ((apply_fix plat fs f).2 ≠ Fixed) as Hskip.
    { intros Hfixed.
      destruct (apply_fix plat fs f) as [fs' o] eqn:Happly. simpl in *.
      subst o. apply apply_fix_Fixed in Happly
        as (content' & lc' & Hfile' & _ & Hline' & _ & _ & Hin & _).
      simplify_eq. apply Hnot. by apply contains_spec. }
    split; [by apply apply_fix_skipped|done].
  - intros. by apply fix_line_indentation_stale.
Qed.

Lemma edit_applied_only_if_old_text_in_span_witness :
  ∃ content line_content pre post,
    class_file !! file_path wide_fix = Some content ∧
    splitlines (universal_newlines content) !! Z.to_nat (line wide_fix)
      = Some line_content ∧
    slice line_content (col_start wide_fix) (col_end wide_fix)
      = pre ++ old_class wide_fix ++ post.
Proof.
  apply (proj1 edit_applied_only_if_old_text_in_span Posix class_file wide_fix
           (<[py "app.html" := py "p-1" ++ [LF]]> class_file)).
  vm_compute. reflexivity.
Defined.

(** C1 as stated fails: the span holds [p-4 m-2], which is not the
    expected [p-4], and the edit is applied all the same; the whole span,
    [m-2] included, is replaced. *)
Lemma span_differs_yet_edit_applied :
  slice (py "p-4 m-2") (col_start wide_fix) (col_end wide_fix)
    ≠ old_class wide_fix ∧
  apply_fix Posix class_file wide_fix =
    ({[ py "app.html" := py "p-1" ++ [LF] ]}, Fixed).
Proof. split; [by vm_compute|]. vm_compute. reflexivity. Qed.

(** ** C2: line terminators *)




(** ** C4: a second pass *)

(** C4, as the code has it. When no two diagnostics of a file name the
    same line and the file has LF or CR LF terminators (no lone CR), a
    second pass of the indentation fixer with the same diagnostics over
    the file left by the first applies no edit and does not write the
    file. *)
Theorem indentation_second_pass_changes_nothing fs file_path problems :
  (∀ content, fs !! file_path = Some content → no_lone_cr content = true) →
  NoDup (line_number <$> problems) →
  let fs1 := (fix_file_indentation fs file_path problems).2 in
  fix_file_indentation fs1 file_path problems = (false, fs1).
Proof.
  intros Hcr Hdup. simpl.
  assert (fix_file_indentation fs file_path problems = (false, fs) ∨
          ∃ content lines1,
            fs !! file_path = Some content ∧
            fix_lines (readlines content) problems = Ok (lines1, true) ∧
            fix_file_indentation fs file_path problems
              = (true, <[file_path := concat lines1]> fs)) as Hfirst.
  { unfold fix_file_indentation.
    destruct (fs !! file_path) as [content|] eqn:Hfile; [|by left].
    destruct (fix_lines (readlines content) problems)
      as [[lines1 [|]]|e] eqn:Hlines; [right|by left..].
    by exists content, lines1. }
  destruct Hfirst as [Hfirst|(content & lines1 & Hfile & Hlines & Hfirst)];
    rewrite Hfirst; simpl; [done|].
  unfold fix_file_indentation. rewrite lookup_insert_eq.
  destruct (second_pass content problems lines1 true) as [lines2 ->]; auto.
Qed.

Lemma indentation_second_pass_changes_nothing_witness :
  fix_file_indentation
    (fix_file_indentation crlf_indent_project (py "src/a.js")
       distinct_entries).2 (py "src/a.js") distinct_entries
  = (false,
     (fix_file_indentation crlf_indent_project (py "src/a.js")
        distinct_entries).2).
Proof.
  apply (indentation_second_pass_changes_nothing crlf_indent_project
           (py "src/a.js") distinct_entries).
  - intros content Hcontent. vm_compute in Hcontent. simplify_eq. reflexivity.
  - apply (bool_decide_unpack _). by vm_compute.
Defined.

(** C4 as stated fails. With two diagnostics that name line 1 of a
    file whose line has six leading spaces, the first pass leaves four
    spaces and the second pass edits again, leaving eight. *)
Lemma second_pass_edits_again :
  fix_file_indentation one_line_project (py "src/a.js") clashing_entries
    = (true, {[ py "src/a.js" := four_spaces_line ]}) ∧
  fix_file_indentation {[ py "src/a.js" := four_spaces_line ]}
    (py "src/a.js") clashing_entries
    = (true, {[ py "src/a.js" := eight_spaces_line ]}).
Proof. split; vm_compute; reflexivity. Qed.

(** Why C4 needs files without lone CRs: once the line of spaces after
    [a CR] is emptied, its LF joins the CR, the file has one line fewer,
    and the diagnostic of line 3 finds its spaces on line 2. *)
Remark second_pass_after_lone_cr :
  (fix_file_indentation lone_cr_project (py "src/a.js") lone_cr_entries).2
    !! py "src/a.js" = Some (py "a" ++ [CR; LF] ++ py "  b" ++ [LF]) ∧
  fix_file_indentation
    (fix_file_indentation lone_cr_project (py "src/a.js") lone_cr_entries).2
    (py "src/a.js") lone_cr_entries
    = (true, {[ py "src/a.js" := py "a" ++ [CR; LF] ++ py "b" ++ [LF] ]}).
Proof. split; vm_compute; reflexivity. Qed.

(** The canonical-class applier is not idempotent either: where the
    new text begins with the old one, the span still holds the old text
    after the edit, and a second run edits again. *)
Remark applier_second_run_edits_again :
  apply_fix Posix growing_file growing_fix
    = ({[ py "app.html" := py "ab b" ++ [LF] ]}, Fixed) ∧
  apply_fix Posix {[ py "app.html" := py "ab b" ++ [LF] ]} growing_fix
    = ({[ py "app.html" := py "abb b" ++ [LF] ]}, Fixed).
Proof. split; vm_compute; reflexivity. Qed.

(** ** C3: the order of the edits *)




(** ** C5: what an applied edit changes *)



(** ** C8: paths of diagnostics *)

(** C8, as the code has it. For every raw path [/X:/rest] with [X] an
    ASCII letter, [parse_fixes] keeps the drive letter and drops the one
    leading slash, and it leaves every other path as it is. The
    indentation grouper knows the prefix [/K:] only: it turns it into
    [K:], and then replaces every slash by the host's separator; on a
    POSIX host a path that does not start with [/K:] passes unchanged. *)
Theorem drive_letter_paths_normalized :
  (∀ x rest,
     is_letter x = true →
     normalize_resource (SLASH :: x :: COLON :: SLASH :: rest)
       = x :: COLON :: SLASH :: rest) ∧
  (∀ raw_resource,
     drive_prefix raw_resource = false →
     normalize_resource raw_resource = raw_resource) ∧
  (∀ plat rest,
     resource_path plat (py "/K:" ++ rest)
       = replace SLASH (os_sep plat) (py "K:" ++ rest)) ∧
  (∀ resource,
     startswith (py "/K:") resource = false →
     resource_path Posix resource = resource).
Proof.
  split; [|split; [|split]].
  - intros x rest Hx. unfold normalize_resource, drive_prefix.
    rewrite Hx. cbn. destruct (N.eqb_spec x SLASH) as [->|]; [done|].
    reflexivity.
  - intros raw H. unfold normalize_resource. by rewrite H.
  - intros plat rest. unfold resource_path.
    replace (startswith (py "/K:") (py "/K:" ++ rest)) with true by done.
    do 2 f_equal. unfold slice_from. rewrite clamp_inside.
    + done.
    + rewrite len_app. pose proof (len_nonneg rest).
      change (len (py "/K:")) with 3. lia.
  - intros resource H. unfold resource_path. rewrite H.
    unfold replace. simpl. clear H.
    induction resource as [|c r IH]; [done|].
    simpl. rewrite IH. by destruct (N.eqb_spec c SLASH) as [->|].
Qed.

Lemma drive_letter_paths_normalized_witness :
  normalize_resource c_drive_path = py "C:/dir/file.js" ∧
  normalize_resource posix_path = posix_path ∧
  resource_path Windows k_drive_path = py "K:\dir\file.js" ∧
  resource_path Posix posix_path = posix_path.
Proof.
  pose proof drive_letter_paths_normalized as (H1 & H2 & H3 & H4).
  split; [|split; [|split]].
  - by apply (H1 67%N (py "dir/file.js")).
  - by apply (H2 posix_path).
  - apply (H3 Windows (py "/dir/file.js")).
  - by apply (H4 posix_path).
Defined.

(** C8 as stated fails for the indentation grouper and any drive other
    than [K:]: the leading slash of [/C:/dir/file.js] is kept. *)
Lemma other_drive_keeps_leading_slash :
  resource_path Windows c_drive_path = py "\C:\dir\file.js" ∧
  resource_path Posix c_drive_path = py "/C:/dir/file.js".
Proof. by vm_compute. Qed.

(** ** C6: entries that cannot be used *)




(** ** C7: diagnostics that cannot be loaded *)



(** ** C9: edits out of range *)

(** C9, as the code has it. An indentation edit whose line number is
    outside [1, number of lines] is skipped: the file is processed exactly
    as without that edit, so the other edits are still attempted. An edit
    of [apply_fix] whose (0-based) line is outside the file, whose
    [col_start] is at or beyond the length of the line, or whose [col_end]
    exceeds that length, is skipped with the matching message and no file
    changes ([col_end] equal to the length is in range, [col_start] equal
    to it is not); the edits after it are applied as without it. *)
Theorem out_of_range_edit_skipped :
  (∀ fs file_path content ps1 p ps2 line_num,
     fs !! file_path = Some content →
     line_number p = Some line_num →
     ¬ (1 ≤ line_num ≤ len (readlines content)) →
     fix_file_indentation fs file_path (ps1 ++ p :: ps2)
       = fix_file_indentation fs file_path (ps1 ++ ps2)) ∧
  (∀ plat fs f content fixes,
     fs !! UseNewSyntax.file_path f = Some content →
     let lines := splitlines (universal_newlines content) in
     ¬ (0 ≤ UseNewSyntax.line f < len lines) ∨
     (∃ line_content,
        0 ≤ UseNewSyntax.line f ∧
        lines !! Z.to_nat (UseNewSyntax.line f) = Some line_content ∧
        (len line_content ≤ col_start f ∨ len line_content < col_end f)) →
     (apply_fix plat fs f = (fs, LineOutOfBounds) ∨
      apply_fix plat fs f = (fs, RangeOutOfBounds)) ∧
     (apply_fixes plat fs (f :: fixes)).1 = (apply_fixes plat fs fixes).1).
Proof.
  split.
  - intros fs file_path content ps1 p ps2 n Hfile Hn Hout.
    unfold fix_file_indentation. rewrite Hfile.
    by rewrite (fix_lines_skip _ _ _ _ n).
  - intros plat fs f content fixes Hfile lines Hout.
    assert (apply_fix plat fs f = (fs, LineOutOfBounds) ∨
            apply_fix plat fs f = (fs, RangeOutOfBounds)) as Hskip.
    { unfold apply_fix. rewrite Hfile. fold lines.
      destruct Hout as [Hline|(lc & H0 & Hlc & Hcol)].
      - left.
        replace ((0 <=? UseNewSyntax.line f) &&
                 (UseNewSyntax.line f <? len lines)) with false; [done|].
        symmetry. apply andb_false_iff. lia.
      - right. pose proof (lookup_lt_Some _ _ _ Hlc) as Hlt.
        replace ((0 <=? UseNewSyntax.line f) &&
                 (UseNewSyntax.line f <? len lines)) with true.
        2: { symmetry. apply andb_true_iff. unfold len. lia. }
        rewrite Hlc. simpl.
        replace ((col_start f <? len lc) && (col_end f <=? len lc))
          with false; [done|].
        symmetry. apply andb_false_iff. lia. }
    split; [done|]. cbn [apply_fixes].
    destruct Hskip as [->| ->]; by destruct (apply_fixes plat fs fixes).
Qed.

Lemma out_of_range_edit_skipped_witness :
  fix_file_indentation one_line_project (py "src/a.js")
    ([indent_entry 1 4 6] ++ indent_entry 7 0 2 :: [])
    = fix_file_indentation one_line_project (py "src/a.js")
        ([indent_entry 1 4 6] ++ []) ∧
  ((apply_fix Posix two_class_file beyond_last_line_fix
      = (two_class_file, LineOutOfBounds) ∨
    apply_fix Posix two_class_file beyond_last_line_fix
      = (two_class_file, RangeOutOfBounds)) ∧
   (apply_fixes Posix two_class_file [beyond_last_line_fix; right_fix]).1
     = (apply_fixes Posix two_class_file [right_fix]).1).
Proof.
  split.
  - apply (proj1 out_of_range_edit_skipped one_line_project (py "src/a.js")
             six_spaces_line [indent_entry 1 4 6] (indent_entry 7 0 2) [] 7).
    + vm_compute. reflexivity.
    + reflexivity.
    + intros [_ H]. vm_compute in H. by apply H.
  - apply (proj2 out_of_range_edit_skipped Posix two_class_file
             beyond_last_line_fix (py "aa bb" ++ [LF]) [right_fix]).
    + vm_compute. reflexivity.
    + left. intros [_ H]. vm_compute in H. discriminate.
Defined.

(** C9 as stated fails on two points. The indentation script counts a
    skipped edit as a fix: with one line fixed and the edit of line 7
    skipped, it reports two lines fixed. And [apply_fix] treats
    [col_start] equal to the length of the line as out of range. *)
Lemma skipped_edit_counted_and_boundary_refused :
  fix_files one_line_group one_line_project 0 0
    = ({[ py "src/a.js" := four_spaces_line ]}, 1, 2) ∧
  col_start end_of_line_fix = len (py "aa bb") ∧
  col_end end_of_line_fix = len (py "aa bb") ∧
  apply_fix Posix two_class_file end_of_line_fix
    = (two_class_file, RangeOutOfBounds).
Proof. repeat split; vm_compute; reflexivity. Qed.

(** ** C10: the final newline *)



End Claims.

(** * Further properties *)

(** ** The message patterns *)

Module ReFacts.
Import Py PyFacts.

Lemma literal_spec p s r : Re.literal p s = Some r ↔ s = p ++ r.
Proof.
  revert s. induction p as [|a p IH]; intros s; simpl.
  - split; intros; by simplify_eq.
  - destruct s as [|b s]; [done|].
    destruct (N.eqb_spec a b) as [->|Hne].
    + rewrite IH. split; intros; by simplify_eq.
    + split; [done|]. intros. by simplify_eq.
Qed.

Lemma literal_app p r : Re.literal p (p ++ r) = Some r.
Proof. by apply literal_spec. Qed.

(** The run [\d*] takes is made of digits, and stops at a character
    that is not one. *)
Lemma digits_spec s d r :
  Re.digits s = (d, r) →
  s = d ++ r ∧ Forall (λ c, Re.is_digit c = true) d ∧
  (∀ c r', r = c :: r' → Re.is_digit c = false).
Proof.
  revert d r. induction s as [|c s IH]; intros d r; simpl.
  - intros. simplify_eq. by repeat split.
  - destruct (Re.is_digit c) eqn:Hc.
    + destruct (Re.digits s) as [d' r'] eqn:Hs. intros. simplify_eq.
      destruct (IH d' r eq_refl) as (-> & Hd & Hr).
      repeat split; [by constructor|done].
    + intros. simplify_eq. repeat split; [constructor|].
      intros ???. by simplify_eq.
Qed.


Lemma int_nonneg d : Forall (λ c, Re.is_digit c = true) d → 0 ≤ Re.int d.
Proof.
  unfold Re.int.
  assert (∀ acc, 0 ≤ acc → Forall (λ c, Re.is_digit c = true) d →
          0 ≤ fold_left (λ acc d, 10 * acc + (Z.of_N d - 48)) d acc) as H.
  { induction d as [|c d IH]; intros acc Hacc Hd; [done|].
    apply Forall_cons in Hd as [Hc Hd]. simpl. apply IH; [|done].
    unfold Re.is_digit in Hc. apply andb_true_iff in Hc as [Hc _].
    apply N.leb_le in Hc. lia. }
  by apply H.
Qed.

End ReFacts.

(** ** The numbers of an indentation message *)

Module MessageFacts.
Import Py PyFacts FixIndentation ReFacts.

Lemma parse_indentation_message_nonneg message expected found :
  parse_indentation_message message = Some (expected, found) →
  0 ≤ expected ∧ 0 ≤ found.
Proof.
  unfold parse_indentation_message. intros H.
  destruct (Re.literal (py "Expected indentation of ") message)
    as [r1|]; [|done].
  cbn [mbind option_bind] in H.
  destruct (Re.digits r1) as [d1 r2] eqn:Hd1.
  apply digits_spec in Hd1 as (-> & Hd1 & _).
  case_decide; [done|].
  destruct (Re.literal (py " spaces but found ") r2) as [r3|]; [|done].
  cbn [mbind option_bind] in H.
  destruct (Re.digits r3) as [d2 r4] eqn:Hd2.
  apply digits_spec in Hd2 as (-> & Hd2 & _).
  case_decide; [done|].
  destruct (Re.literal [DOT] r4) as [r5|]; [|done].
  cbn [mbind option_bind] in H. simplify_eq.
  split; by apply int_nonneg.
Qed.

End MessageFacts.

(** ** The groups of the indentation script *)

Module GroupFacts.
Import Py PyFacts FixIndentation IndentFacts ReFacts.

Lemma add_problem_keys file_path p grouped :
  (add_problem file_path p grouped).*1 =
    if decide (file_path ∈ grouped.*1) then grouped.*1
    else grouped.*1 ++ [file_path].
Proof.
  induction grouped as [|[k ps] grouped IH]; [done|].
  cbn [add_problem]. rewrite fmap_cons. cbn [fst].
  destruct (decide (k = file_path)) as [->|Hne].
  - rewrite fmap_cons. cbn [fst]. rewrite decide_True; [done|]. by left.
  - rewrite fmap_cons. cbn [fst]. rewrite IH.
    destruct (decide (file_path ∈ grouped.*1)) as [Hin|Hnot].
    + rewrite decide_True; [done|]. by right.
    + rewrite decide_False; [done|]. intros [?|?]%elem_of_cons; congruence.
Qed.

Lemma add_problem_get file_path p grouped :
  Grouped.get file_path (add_problem file_path p grouped)
    = Grouped.get file_path grouped ++ [p].
Proof.
  induction grouped as [|[k ps] grouped IH]; simpl.
  - by rewrite decide_True.
  - destruct (decide (k = file_path)) as [->|Hne]; simpl.
    + by rewrite decide_True.
    + by rewrite decide_False.
Qed.

Lemma add_problem_get_ne file_path other p grouped :
  other ≠ file_path →
  Grouped.get other (add_problem file_path p grouped)
    = Grouped.get other grouped.
Proof.
  intros Hne. induction grouped as [|[k ps] grouped IH]; simpl.
  - by rewrite decide_False.
  - destruct (decide (k = file_path)) as [->|Hk]; simpl.
    + by rewrite !decide_False.
    + destruct (decide (k = other)); [done|]. apply IH.
Qed.

Lemma add_problem_entries file_path p grouped :
  concat (add_problem file_path p grouped).*2 ≡ₚ p :: concat grouped.*2.
Proof.
  induction grouped as [|[k ps] grouped IH]; [done|].
  cbn [add_problem]. rewrite fmap_cons. cbn [snd concat].
  destruct (decide (k = file_path)) as [->|Hne];
    rewrite fmap_cons; cbn [snd concat].
  - rewrite <- app_assoc. simpl. by rewrite <- Permutation_middle.
  - rewrite IH. by rewrite <- Permutation_middle.
Qed.

Lemma add_problem_nonempty file_path p grouped :
  Forall (λ kv, kv.2 ≠ []) grouped →
  Forall (λ kv, kv.2 ≠ []) (add_problem file_path p grouped).
Proof.
  induction 1 as [|[k ps] grouped Hps Hrest IH]; cbn [add_problem].
  - by repeat constructor.
  - destruct (decide (k = file_path)); constructor; try done.
    cbn [snd] in *. by destruct ps.
Qed.

(** What one problem does to the groups: nothing, or one entry added
    under the path of its resource. *)
Lemma group_problem_Ok plat grouped problem grouped' :
  group_problem plat grouped problem = Ok grouped' →
  grouped' = grouped ∨
  ∃ file_path p,
    grouped' = add_problem file_path p grouped ∧
    parse_indentation_message (message p) = Some (expected p, found p).
Proof.
  unfold group_problem. intros H.
  apply bind_Ok_inv in H as (code & _ & H).
  apply bind_Ok_inv in H as (value & _ & H).
  destruct (negb _); [left; by simplify_eq|].
  apply bind_Ok_inv in H as (resource & _ & H).
  apply bind_Ok_inv in H as (resource' & _ & H).
  apply bind_Ok_inv in H as (msg & _ & H).
  apply bind_Ok_inv in H as (msg' & _ & H).
  destruct (parse_indentation_message msg') as [[e f]|] eqn:Hparse;
    [|left; by simplify_eq].
  apply bind_Ok_inv in H as (line & _ & H). simplify_eq.
  right. by eexists _, _.
Qed.

End GroupFacts.

Module GroupLoopFacts.
Import Py PyFacts FixIndentation IndentFacts ReFacts GroupFacts.

Lemma group_loop_app plat ps1 ps2 grouped :
  group_loop plat (ps1 ++ ps2) grouped
    = group_loop plat ps1 grouped ≫= group_loop plat ps2.
Proof.
  revert grouped. induction ps1 as [|p ps1 IH]; intros grouped; [done|].
  cbn [app group_loop].
  destruct (group_problem plat grouped p) as [g|e]; [apply IH|done].
Qed.

(** What the loop keeps: distinct paths, no empty group, entries that
    come from a parsed message; and it adds at most one entry for each
    problem. *)
Lemma group_loop_invariant plat problems grouped grouped' :
  group_loop plat problems grouped = Ok grouped' →
  NoDup grouped.*1 →
  Forall (λ kv, kv.2 ≠ []) grouped →
  Forall (λ p, parse_indentation_message (message p)
               = Some (expected p, found p)) (concat grouped.*2) →
  NoDup grouped'.*1 ∧
  Forall (λ kv, kv.2 ≠ []) grouped' ∧
  Forall (λ p, parse_indentation_message (message p)
               = Some (expected p, found p)) (concat grouped'.*2) ∧
  (length (concat grouped'.*2)
     ≤ length (concat grouped.*2) + length problems)%nat.
Proof.
  revert grouped. induction problems as [|problem problems IH];
    intros grouped H Hdup Hne Hparsed.
  - simplify_eq/=. repeat split; try done. lia.
  - cbn [group_loop] in H. apply bind_Ok_inv in H as (g1 & Hstep & H).
    apply group_problem_Ok in Hstep
      as [->|(file_path & p & -> & Hp)].
    + destruct (IH _ H) as (? & ? & ? & ?); try done.
      repeat split; try done. simpl. lia.
    + destruct (IH _ H) as (? & ? & ? & Hlen).
      * rewrite add_problem_keys. case_decide; [done|].
        apply NoDup_app. repeat split; [done| |apply NoDup_singleton].
        intros x Hx ->%list_elem_of_singleton. done.
      * by apply add_problem_nonempty.
      * rewrite add_problem_entries. by constructor.
      * repeat split; try done.
        rewrite add_problem_entries in Hlen. simpl in *. lia.
Qed.

End GroupLoopFacts.

(** ** Files the indentation script touches *)

Module FilesFacts.
Import Py PyFacts FixIndentation IndentFacts GroupFacts GroupLoopFacts.

Lemma fix_file_indentation_other fs file_path problems other :
  other ≠ file_path →
  (fix_file_indentation fs file_path problems).2 !! other = fs !! other.
Proof.
  intros Hne. unfold fix_file_indentation.
  destruct (fs !! file_path) as [content|]; [|done].
  destruct (fix_lines _ _) as [[lines [|]]|e]; simpl; try done.
  by apply lookup_insert_ne.
Qed.

(** The pass creates no file and removes none. *)
Lemma fix_file_indentation_dom fs file_path problems path :
  is_Some ((fix_file_indentation fs file_path problems).2 !! path)
  ↔ is_Some (fs !! path).
Proof.
  unfold fix_file_indentation.
  destruct (fs !! file_path) as [content|] eqn:Hfile; [|done].
  destruct (fix_lines _ _) as [[lines [|]]|e]; simpl; try done.
  destruct (decide (path = file_path)) as [->|Hne].
  - rewrite lookup_insert_eq, Hfile. split; by eexists.
  - by rewrite lookup_insert_ne.
Qed.

Lemma not_indent_skipped plat grouped problem :
  Findings.not_indent problem →
  group_problem plat grouped problem = Ok grouped.
Proof.
  intros (items & -> & [Hnone|(fields & Hcode & Hvalue)]);
    unfold group_problem; cbn [Json.get]; rewrite ?Hnone, ?Hcode;
    cbn -[py].
  - done.
  - by rewrite Hvalue.
Qed.


End FilesFacts.

(** ** More of [fix_indentation.py] *)

Section FurtherIndentation.
Import Py PyFacts IndentFacts OrderFacts SkipFacts EntryFacts ReFacts.
Import MessageFacts.
Import GroupFacts GroupLoopFacts FilesFacts.
Import FixIndentation Samples.







(** X4. [fix_line_indentation] is idempotent for every line and every
    pair of counts, and changes nothing when [expected] equals [found]. *)
Theorem fix_line_indentation_again l expected found :
  fix_line_indentation (fix_line_indentation l expected found) expected found
    = fix_line_indentation l expected found ∧
  fix_line_indentation l found found = l.
Proof.
  split; [apply fix_line_indentation_idemp|].
  destruct (decide (leading_spaces l = found)) as [Hl|Hl].
  - rewrite fix_line_indentation_match by done. rewrite <- Hl.
    symmetry. apply line_split.
  - by apply fix_line_indentation_stale.
Qed.

(** X5. The groups [group_indentation_problems] returns have distinct
    file paths and no empty group; every entry carries the two numbers
    parsed from its own message, neither negative; and there are at most
    as many entries as problems. *)
Theorem groups_are_well_formed plat problems grouped :
  group_indentation_problems plat (JList problems) = Ok grouped →
  NoDup grouped.*1 ∧
  Forall (λ kv, kv.2 ≠ []) grouped ∧
  Forall (λ p, parse_indentation_message (message p)
               = Some (expected p, found p) ∧
               0 ≤ expected p ∧ 0 ≤ found p) (concat grouped.*2) ∧
  (length (concat grouped.*2) ≤ length problems)%nat.
Proof.
  unfold group_indentation_problems. cbn [Json.iterate mbind result_bind].
  intros H.
  destruct (group_loop_invariant _ _ _ _ H) as (Hdup & Hne & Hparsed & Hlen);
    [constructor..|].
  repeat split; try done.
  eapply Forall_impl; [done|]. intros p Hp. split; [done|].
  by apply (parse_indentation_message_nonneg (message p)).
Qed.

Lemma groups_are_well_formed_witness :
  let grouped :=
    [(py "K:\src\a.js",
      [{| line := JInt 1; expected := 4; found := 6;
          message := four_not_six |};
       {| line := JInt 2; expected := 2; found := 0;
          message := two_not_zero |}]);
     (py "K:\src\b.js",
      [{| line := JInt 3; expected := 2; found := 0;
          message := two_not_zero |}])] in
  NoDup grouped.*1 ∧
  Forall (λ kv, kv.2 ≠ []) grouped ∧
  Forall (λ p, parse_indentation_message (message p)
               = Some (expected p, found p) ∧
               0 ≤ expected p ∧ 0 ≤ found p) (concat grouped.*2) ∧
  (length (concat grouped.*2) ≤ length two_file_export)%nat.
Proof.
  apply (groups_are_well_formed Windows two_file_export).
  vm_compute. reflexivity.
Defined.

(** X6. A problem that is not an [indent] finding leaves no trace: the
    groups are those of the export without it. *)
Theorem other_findings_are_dropped plat ps1 q ps2 grouped :
  Findings.not_indent q →
  group_loop plat (ps1 ++ q :: ps2) grouped
    = group_loop plat (ps1 ++ ps2) grouped.
Proof.
  intros Hq. rewrite !group_loop_app.
  destruct (group_loop plat ps1 grouped) as [g|e]; [|done].
  change (group_loop plat (q :: ps2) g = group_loop plat ps2 g).
  cbn [group_loop]. by rewrite not_indent_skipped.
Qed.

Lemma other_findings_are_dropped_witness :
  group_loop Posix
    ([indent_problem (py "/K:/src/a.js") 1 four_not_six]
     ++ other_rule_problem
     :: [indent_problem (py "/K:/src/b.js") 3 two_not_zero]) []
  = group_loop Posix
      ([indent_problem (py "/K:/src/a.js") 1 four_not_six]
       ++ [indent_problem (py "/K:/src/b.js") 3 two_not_zero]) [].
Proof.
  apply (other_findings_are_dropped Posix). eexists. split; [reflexivity|].
  right. eexists. split; [reflexivity|]. reflexivity.
Defined.

(** X7. Adding an entry to the groups puts it last in the group of its
    file, leaves every other group as it was, and keeps the order of the
    files, a file seen for the first time coming last. *)
Theorem entry_added_last file_path p grouped :
  Grouped.get file_path (add_problem file_path p grouped)
    = Grouped.get file_path grouped ++ [p] ∧
  (∀ other, other ≠ file_path →
     Grouped.get other (add_problem file_path p grouped)
       = Grouped.get other grouped) ∧
  (add_problem file_path p grouped).*1 =
    (if decide (file_path ∈ grouped.*1) then grouped.*1
     else grouped.*1 ++ [file_path]).
Proof.
  split; [apply add_problem_get|]. split; [|apply add_problem_keys].
  intros. by apply add_problem_get_ne.
Qed.

(** X8. The loop of [main] over the groups touches only the files the
    groups name, creates no file and removes none; it counts at most one
    fixed file for each group and, for each fixed file, all the entries of
    its group. *)
Theorem fix_files_frame_and_counters grouped fs files_fixed total_fixes
    fs' files_fixed' total_fixes' :
  fix_files grouped fs files_fixed total_fixes
    = (fs', files_fixed', total_fixes') →
  (∀ path, path ∉ grouped.*1 → fs' !! path = fs !! path) ∧
  (∀ path, is_Some (fs' !! path) ↔ is_Some (fs !! path)) ∧
  files_fixed ≤ files_fixed' ≤ files_fixed + len grouped ∧
  total_fixes ≤ total_fixes' ≤ total_fixes + len (concat grouped.*2) ∧
  (Forall (λ kv, kv.2 ≠ []) grouped →
   files_fixed' - files_fixed ≤ total_fixes' - total_fixes).
Proof.
  revert fs files_fixed total_fixes.
  induction grouped as [|[file_path file_problems] grouped IH];
    intros fs ff tf H.
  - simplify_eq/=. unfold len. simpl. repeat split; try done; lia.
  - cbn [fix_files] in H.
    destruct (fix_file_indentation fs file_path file_problems)
      as [fixed fs1] eqn:Hfile.
    assert (∀ path, path ≠ file_path → fs1 !! path = fs !! path) as Hother.
    { intros path Hne.
      by rewrite <- (fix_file_indentation_other fs file_path file_problems),
        Hfile. }
    assert (∀ path, is_Some (fs1 !! path) ↔ is_Some (fs !! path)) as Hdom.
    { intros path.
      by rewrite <- (fix_file_indentation_dom fs file_path file_problems),
        Hfile. }
    rewrite fmap_cons. cbn [fst snd concat]. rewrite fmap_cons. cbn [snd concat].
    rewrite len_app. pose proof (len_nonneg file_problems).
    pose proof (len_nonneg (concat grouped.*2)).
    pose proof (len_nonneg grouped).
    assert (len ((file_path, file_problems) :: grouped) = 1 + len grouped)
      as -> by (unfold len; simpl; lia).
    destruct fixed; apply IH in H as (Hframe & Hdom' & Hff & Htf & Hne).
    + split; [|split; [|split; [|split]]].
      * intros path Hpath. apply not_elem_of_cons in Hpath as [??].
        rewrite Hframe by done. by apply Hother.
      * intros path. by rewrite Hdom'.
      * lia.
      * lia.
      * intros [Hfp Hrest]%Forall_cons. specialize (Hne Hrest).
        cbn [snd] in Hfp. assert (0 < len file_problems); [|lia].
        destruct file_problems; [done|]. unfold len. simpl. lia.
    + split; [|split; [|split; [|split]]].
      * intros path Hpath. apply not_elem_of_cons in Hpath as [??].
        rewrite Hframe by done. by apply Hother.
      * intros path. by rewrite Hdom'.
      * lia.
      * lia.
      * intros [_ Hrest]%Forall_cons. by apply Hne.
Qed.

Lemma fix_files_frame_and_counters_witness :
  (∀ path, path ∉ one_line_group.*1 →
     ({[ py "src/a.js" := four_spaces_line ]} : filesystem) !! path
       = one_line_project !! path) ∧
  (∀ path,
     is_Some (({[ py "src/a.js" := four_spaces_line ]} : filesystem) !! path)
     ↔ is_Some (one_line_project !! path)) ∧
  0 ≤ 1 ≤ 0 + len one_line_group ∧
  0 ≤ 2 ≤ 0 + len (concat one_line_group.*2) ∧
  (Forall (λ kv, kv.2 ≠ []) one_line_group → 1 - 0 ≤ 2 - 0).
Proof.
  apply (fix_files_frame_and_counters one_line_group one_line_project 0 0).
  vm_compute. reflexivity.
Defined.



(** X10. The path the grouper computes is stable: computing it again
    from its own result changes nothing, on either host. *)
Theorem resource_path_idempotent plat resource :
  resource_path plat (resource_path plat resource)
    = resource_path plat resource.
Proof.
  assert (∀ s, replace SLASH (os_sep plat) (replace SLASH (os_sep plat) s)
               = replace SLASH (os_sep plat) s) as Hreplace.
  { intros s. unfold replace. rewrite List.map_map. apply List.map_ext.
    intros c. destruct (N.eqb_spec c SLASH) as [->|Hc].
    - by destruct plat.
    - by destruct (N.eqb_spec c SLASH). }
  unfold resource_path.
  set (r1 := if startswith (py "/K:") resource
             then py "K:" ++ slice_from resource 3 else resource).
  assert (startswith (py "/K:") (replace SLASH (os_sep plat) r1) = false)
    as ->; [|apply Hreplace].
  destruct plat.
  - assert (replace SLASH (os_sep Posix) r1 = r1) as ->.
    { unfold replace. simpl. rewrite <- (List.map_id r1) at 2.
      apply List.map_ext. intros c. by destruct (N.eqb_spec c SLASH) as [->|]. }
    unfold r1. by destruct (startswith (py "/K:") resource) eqn:Hstart.
  - clearbody r1.
    destruct (startswith _ (replace _ _ r1)) eqn:Hstart; [|done].
    apply startswith_spec in Hstart as [post Hpost].
    destruct r1 as [|c r1']; [done|].
    unfold replace in Hpost. cbn [List.map os_sep] in Hpost.
    injection Hpost as Hhead _.
    destruct (N.eqb_spec c SLASH) as [->|Hc]; [done|].
    exfalso. apply Hc. rewrite Hhead. reflexivity.
Qed.

End FurtherIndentation.

(** ** The pattern of the canonical-class message *)

Module SearchFacts.
Import Py PyFacts ReFacts UseNewSyntax.

Lemma until_backtick_app g r :
  BACKTICK ∉ g → Re.until_backtick (g ++ BACKTICK :: r) = Some (g, r).
Proof.
  induction g as [|c g IH]; intros Hg; simpl.
  - done.
  - apply not_elem_of_cons in Hg as [Hc Hg].
    destruct (N.eqb_spec c BACKTICK); [done|]. by rewrite IH.
Qed.

Lemma until_backtick_inv s g r :
  Re.until_backtick s = Some (g, r) → s = g ++ BACKTICK :: r ∧ BACKTICK ∉ g.
Proof.
  revert g r. induction s as [|c s IH]; intros g r; simpl; [done|].
  destruct (N.eqb_spec c BACKTICK) as [->|Hc].
  - intros ?. simplify_eq. split; [done|]. apply not_elem_of_nil.
  - destruct (Re.until_backtick s) as [[g' r']|]; [|done]. simpl.
    intros ?. simplify_eq. destruct (IH g' r eq_refl) as [-> Hg'].
    split; [done|]. by apply not_elem_of_cons.
Qed.

Lemma until_backtick_spec s g r :
  Re.until_backtick s = Some (g, r) ↔ s = g ++ BACKTICK :: r ∧ BACKTICK ∉ g.
Proof.
  split; [apply until_backtick_inv|]. intros [-> ?]. by apply until_backtick_app.
Qed.

Lemma skip_spaces_app ws r :
  Forall (λ c, Re.is_space c = true) ws →
  (∀ c r', r = c :: r' → Re.is_space c = false) →
  Re.skip_spaces (ws ++ r) = r.
Proof.
  intros Hws Hr. induction Hws as [|c ws Hc _ IH]; cbn [Re.skip_spaces Re.spaces1 app].
  - destruct r as [|c r]; [done|]. cbn [Re.skip_spaces].
    by rewrite (Hr c r).
  - by rewrite Hc.
Qed.

Lemma skip_spaces_spec s :
  ∃ ws, s = ws ++ Re.skip_spaces s ∧ Forall (λ c, Re.is_space c = true) ws.
Proof.
  induction s as [|c s (ws & Hs & Hws)]; cbn [Re.skip_spaces Re.spaces1 app].
  - by exists [].
  - destruct (Re.is_space c) eqn:Hc.
    + exists (c :: ws). split; [by rewrite Hs at 1|by constructor].
    + by exists [].
Qed.

Lemma spaces1_app ws r :
  ws ≠ [] →
  Forall (λ c, Re.is_space c = true) ws →
  (∀ c r', r = c :: r' → Re.is_space c = false) →
  Re.spaces1 (ws ++ r) = Some r.
Proof.
  intros Hne Hws Hr. destruct ws as [|c ws]; [done|].
  apply Forall_cons in Hws as [Hc Hws]. cbn [Re.skip_spaces Re.spaces1 app]. rewrite Hc.
  by rewrite skip_spaces_app.
Qed.

Lemma spaces1_spec s r :
  Re.spaces1 s = Some r →
  ∃ ws, s = ws ++ r ∧ ws ≠ [] ∧ Forall (λ c, Re.is_space c = true) ws.
Proof.
  destruct s as [|c s]; [done|]. cbn [Re.skip_spaces Re.spaces1 app].
  destruct (Re.is_space c) eqn:Hc; [|done]. intros ?. simplify_eq.
  destruct (skip_spaces_spec s) as (ws & Hs & Hws).
  exists (c :: ws). split; [by rewrite Hs at 1|]. split; [done|by constructor].
Qed.

Lemma joiner_spec s r :
  joiner s = Some r ↔ s = py "can be written as" ++ r ∨ s = ARROW :: r.
Proof.
  unfold joiner.
  destruct (Re.literal (py "can be written as") s) as [r'|] eqn:Hwords.
  - apply literal_spec in Hwords as ->. split.
    + intros ?. simplify_eq. by left.
    + intros [H|H]; [by simplify_list_eq|done].
  - rewrite (literal_spec [ARROW]). split; [by right|].
    intros [->|H]; [|done]. by rewrite literal_app in Hwords.
Qed.

(** The pattern matches from a backtick on. *)
Lemma match_after_backtick_app old_class ws1 j ws2 new_class post :
  old_class ≠ [] → BACKTICK ∉ old_class →
  new_class ≠ [] → BACKTICK ∉ new_class →
  ws1 ≠ [] → Forall (λ c, Re.is_space c = true) ws1 →
  ws2 ≠ [] → Forall (λ c, Re.is_space c = true) ws2 →
  j = py "can be written as" ∨ j = [ARROW] →
  match_after_backtick
    (old_class ++ BACKTICK :: ws1 ++ j ++ ws2 ++ BACKTICK :: new_class
     ++ BACKTICK :: post)
    = Some (old_class, new_class).
Proof.
  intros Hold Hold' Hnew Hnew' Hws1 Hsp1 Hws2 Hsp2 Hj.
  unfold match_after_backtick.
  rewrite (proj2 (until_backtick_spec _ old_class _)) by done.
  cbn [mbind option_bind]. case_decide; [done|].
  rewrite spaces1_app; [|done..|].
  2: { intros c r' Hr. destruct Hj as [-> | ->]; by injection Hr as <- _. }
  cbn [mbind option_bind].
  rewrite (proj2 (joiner_spec _ (ws2 ++ BACKTICK :: new_class
                                   ++ BACKTICK :: post))).
  2: { destruct Hj as [-> | ->]; [by left|by right]. }
  cbn [mbind option_bind].
  rewrite spaces1_app; [|done..|].
  2: { intros c r' Hr. by injection Hr as <- _. }
  cbn [mbind option_bind].
  change (Re.literal [BACKTICK] (BACKTICK :: new_class ++ BACKTICK :: post))
    with (Some (new_class ++ BACKTICK :: post)).
  cbn [mbind option_bind].
  rewrite (proj2 (until_backtick_spec _ new_class _)) by done.
  cbn [mbind option_bind]. by case_decide.
Qed.

Lemma match_after_backtick_spec s old_class new_class :
  match_after_backtick s = Some (old_class, new_class) →
  old_class ≠ [] ∧ (BACKTICK ∉ old_class) ∧
  new_class ≠ [] ∧ (BACKTICK ∉ new_class) ∧
  ∃ ws1 j ws2 post,
    s = old_class ++ BACKTICK :: ws1 ++ j ++ ws2 ++ BACKTICK :: new_class
        ++ BACKTICK :: post ∧
    ws1 ≠ [] ∧ Forall (λ c, Re.is_space c = true) ws1 ∧
    ws2 ≠ [] ∧ Forall (λ c, Re.is_space c = true) ws2 ∧
    (j = py "can be written as" ∨ j = [ARROW]).
Proof.
  unfold match_after_backtick. intros H.
  destruct (Re.until_backtick s) as [[old r1]|] eqn:H1; [|done].
  apply until_backtick_spec in H1 as [-> Hold].
  cbn [mbind option_bind] in H. case_decide as Hne; [done|].
  destruct (Re.spaces1 r1) as [r2|] eqn:H2; [|done].
  apply spaces1_spec in H2 as (ws1 & -> & Hws1 & Hsp1).
  cbn [mbind option_bind] in H.
  destruct (joiner r2) as [r3|] eqn:H3; [|done].
  cbn [mbind option_bind] in H.
  destruct (Re.spaces1 r3) as [r4|] eqn:H4; [|done].
  apply spaces1_spec in H4 as (ws2 & -> & Hws2 & Hsp2).
  cbn [mbind option_bind] in H.
  destruct (Re.literal [BACKTICK] r4) as [r5|] eqn:H5; [|done].
  apply literal_spec in H5 as ->. cbn [mbind option_bind] in H.
  destruct (Re.until_backtick r5) as [[new r6]|] eqn:H6; [|done].
  apply until_backtick_spec in H6 as [-> Hnew].
  cbn [mbind option_bind] in H. case_decide as Hne'; [done|]. simplify_eq.
  split_and!; try done.
  apply joiner_spec in H3 as [-> | ->].
  - exists ws1, (py "can be written as"), ws2, r6.
    split_and!; try done; first [by left|by rewrite <- !app_assoc].
  - exists ws1, [ARROW], ws2, r6. split_and!; try done. by right.
Qed.

End SearchFacts.

(** ** Parsing and applying the class fixes *)

Module FixesFacts.
Import Py PyFacts SyntaxFacts LineFacts WriteFacts UseNewSyntax.

Lemma parse_loop_app ps1 ps2 :
  parse_loop (ps1 ++ ps2) =
    fixes1 ← parse_loop ps1; fixes2 ← parse_loop ps2; Ok (fixes1 ++ fixes2).
Proof.
  induction ps1 as [|p ps1 IH]; cbn [app parse_loop].
  - destruct (parse_loop ps2); done.
  - destruct (parse_problem p) as [f|e]; [|done]. cbn [mbind result_bind].
    rewrite IH. destruct (parse_loop ps1) as [fixes1|e]; [|done].
    cbn [mbind result_bind].
    destruct (parse_loop ps2) as [fixes2|e]; [|done].
    cbn [mbind result_bind]. by rewrite app_assoc.
Qed.

Lemma not_canonical_skipped problem :
  Findings.not_canonical problem → parse_problem problem = Ok None.
Proof.
  intros (items & -> & [Howner|Hcode]); unfold parse_problem;
    cbn [Json.get mbind result_bind].
  - by rewrite Howner.
  - rewrite Hcode. by destruct (negb _).
Qed.

Lemma parse_loop_length problems fixes :
  parse_loop problems = Ok fixes → (length fixes ≤ length problems)%nat.
Proof.
  revert fixes. induction problems as [|p ps IH]; intros fixes H.
  - by simplify_eq/=.
  - cbn [parse_loop] in H. apply bind_Ok_inv in H as (f & _ & H).
    apply bind_Ok_inv in H as (fixes' & Hrest & H). simplify_eq.
    apply IH in Hrest. rewrite length_app. destruct f; simpl; lia.
Qed.

Section Frame.
Variable plat : platform.


End Frame.

(** Reading back what [write_text] wrote, on the same host. *)
Lemma read_write_newlines plat s :
  CR ∉ s → universal_newlines (write_newlines plat s) = s.
Proof.
  intros Hcr. destruct plat; cbn [write_newlines].
  - induction s as [|c s IH]; [done|].
    apply not_elem_of_cons in Hcr as [Hc Hcr]. cbn [universal_newlines].
    destruct (N.eqb_spec c CR); [done|]. by rewrite IH.
  - induction s as [|c s IH]; [done|].
    apply not_elem_of_cons in Hcr as [Hc Hcr].
    cbn [mbind list_bind]. fold (@mbind list _).
    destruct (N.eqb_spec c LF) as [->|Hlf].
    + cbn [app universal_newlines].
      change (CR =? CR)%N with true. change (LF =? LF)%N with true.
      cbn iota. f_equal. by apply IH.
    + cbn [app universal_newlines].
      destruct (N.eqb_spec c CR); [done|]. f_equal. by apply IH.
Qed.

(** A line without line breaks, then LF, is one line for [splitlines]. *)
Lemma splitlines_line l s :
  Forall (λ c, is_linebreak c = false) l →
  splitlines (l ++ LF :: s) = l :: splitlines s.
Proof.
  induction 1 as [|c l Hc _ IH]; cbn [app].
  - rewrite splitlines_cons. change (is_linebreak LF) with true.
    cbn iota. by destruct s.
  - rewrite splitlines_cons, Hc, IH. done.
Qed.

(** Lines joined with LF and closed by LF split into the same lines. *)
Lemma splitlines_join lines :
  lines ≠ [] →
  Forall (Forall (λ c, is_linebreak c = false)) lines →
  splitlines (join LF lines ++ [LF]) = lines.
Proof.
  intros Hne Hlines. induction Hlines as [|l lines Hl Hrest IH]; [done|].
  destruct lines as [|l2 lines].
  - cbn [join]. by rewrite splitlines_line.
  - change (join LF (l :: l2 :: lines)) with (l ++ LF :: join LF (l2 :: lines)).
    rewrite <- app_assoc. cbn [app]. rewrite splitlines_line by done.
    f_equal. by apply IH.
Qed.

End FixesFacts.

(** ** More of [use_new_syntax.py] *)

Section FurtherSyntax.
Import Py PyFacts SyntaxFacts ReFacts SearchFacts LineFacts WriteFacts.
Import FixesFacts.
Import UseNewSyntax Samples.

(** X11. The path [parse_fixes] computes is stable: normalised again,
    it does not change. *)
Theorem normalize_resource_idempotent raw_resource :
  normalize_resource (normalize_resource raw_resource)
    = normalize_resource raw_resource.
Proof.
  destruct (drive_prefix raw_resource) eqn:Hdrive.
  2: { assert (normalize_resource raw_resource = raw_resource) as Hsame
         by (unfold normalize_resource; by rewrite Hdrive).
       by rewrite !Hsame. }
  destruct raw_resource as [|a [|x [|b [|c rest]]]]; [done..|].
  assert (normalize_resource (a :: x :: b :: c :: rest) = x :: b :: c :: rest)
    as ->.
  { unfold normalize_resource. rewrite Hdrive.
    cbn [drive_prefix] in Hdrive.
    apply andb_true_iff in Hdrive as [Hdrive _].
    apply andb_true_iff in Hdrive as [Hdrive _].
    apply andb_true_iff in Hdrive as [Ha%N.eqb_eq Hx]. subst a.
    assert (x ≠ SLASH) as Hne by (intros ->; by vm_compute in Hx).
    apply N.eqb_neq in Hne.
    cbn [lstrip]. change (SLASH =? SLASH)%N with true. cbn iota.
    by rewrite Hne. }
  cbn [drive_prefix] in Hdrive.
  apply andb_true_iff in Hdrive as [Hdrive _].
  apply andb_true_iff in Hdrive as [Hdrive _].
  apply andb_true_iff in Hdrive as [_ Hx].
  assert (x ≠ SLASH) as Hne by (intros ->; by vm_compute in Hx).
  apply N.eqb_neq in Hne.
  unfold normalize_resource.
  assert (drive_prefix (x :: b :: c :: rest) = false) as ->; [|done].
  destruct rest as [|d rest]; [done|]. cbn [drive_prefix]. by rewrite Hne.
Qed.

(** X12. [re.search] with the pattern of [parse_fixes] finds the two
    classes in every message that holds, after any text without a
    backtick, the old class in backticks, white space, the words "can be
    written as" or the arrow, white space, and the new class in
    backticks. *)
Theorem suggestion_found pre old_class ws1 j ws2 new_class post :
  BACKTICK ∉ pre →
  old_class ≠ [] → BACKTICK ∉ old_class →
  new_class ≠ [] → BACKTICK ∉ new_class →
  ws1 ≠ [] → Forall (λ c, Re.is_space c = true) ws1 →
  ws2 ≠ [] → Forall (λ c, Re.is_space c = true) ws2 →
  j = py "can be written as" ∨ j = [ARROW] →
  search (pre ++ BACKTICK :: old_class ++ BACKTICK :: ws1 ++ j ++ ws2
          ++ BACKTICK :: new_class ++ BACKTICK :: post)
    = Some (old_class, new_class).
Proof.
  intros Hpre. intros. induction pre as [|c pre IH]; cbn [app search].
  - change (BACKTICK =? BACKTICK)%N with true. cbn iota.
    by rewrite match_after_backtick_app.
  - apply not_elem_of_cons in Hpre as [Hc Hpre].
    destruct (N.eqb_spec c BACKTICK); [done|]. by apply IH.
Qed.

Lemma suggestion_found_witness :
  search written_as_message = Some (py "w-[100px]", py "w-25") ∧
  search arrow_message = Some (py "flex-shrink-0", py "shrink-0").
Proof.
  split.
  - apply (suggestion_found (py "The class ") (py "w-[100px]") [SPACE]
             (py "can be written as") [SPACE] (py "w-25") []);
      try done; try (by repeat constructor); try (by left);
      apply (bool_decide_unpack _); by vm_compute.
  - apply (suggestion_found [] (py "flex-shrink-0") [SPACE] [ARROW] [SPACE]
             (py "shrink-0") []);
      try done; try (by repeat constructor); try (by right);
      apply (bool_decide_unpack _); by vm_compute.
Defined.

(** X13. The two classes [re.search] returns are never empty and hold
    no backtick, and the message holds them, in backticks, joined as the
    pattern says. *)
Theorem suggestion_shape message old_class new_class :
  search message = Some (old_class, new_class) →
  old_class ≠ [] ∧ (BACKTICK ∉ old_class) ∧
  new_class ≠ [] ∧ (BACKTICK ∉ new_class) ∧
  ∃ pre ws1 j ws2 post,
    message = pre ++ BACKTICK :: old_class ++ BACKTICK :: ws1 ++ j ++ ws2
              ++ BACKTICK :: new_class ++ BACKTICK :: post ∧
    ws1 ≠ [] ∧ Forall (λ c, Re.is_space c = true) ws1 ∧
    ws2 ≠ [] ∧ Forall (λ c, Re.is_space c = true) ws2 ∧
    (j = py "can be written as" ∨ j = [ARROW]).
Proof.
  intros H.
  assert (∃ pre s, message = pre ++ BACKTICK :: s ∧
                   match_after_backtick s = Some (old_class, new_class))
    as (pre & s & -> & Hmatch).
  { induction message as [|c message IH]; [done|]. cbn [search] in H.
    destruct (N.eqb_spec c BACKTICK) as [->|Hc].
    - destruct (match_after_backtick message) as [groups|] eqn:Hm.
      + simplify_eq. by exists [], message.
      + destruct (IH H) as (pre & s & -> & Hs).
        by exists (BACKTICK :: pre), s.
    - destruct (IH H) as (pre & s & -> & Hs). by exists (c :: pre), s. }
  apply match_after_backtick_spec in Hmatch
    as (? & ? & ? & ? & ws1 & j & ws2 & post & -> & ? & ? & ? & ? & ?).
  split_and!; try done. by exists pre, ws1, j, ws2, post.
Qed.

Lemma suggestion_shape_witness :
  py "w-[100px]" ≠ [] ∧ (BACKTICK ∉ py "w-[100px]") ∧
  py "w-25" ≠ [] ∧ (BACKTICK ∉ py "w-25") ∧
  ∃ pre ws1 j ws2 post,
    written_as_message
      = pre ++ BACKTICK :: py "w-[100px]" ++ BACKTICK :: ws1 ++ j ++ ws2
        ++ BACKTICK :: py "w-25" ++ BACKTICK :: post ∧
    ws1 ≠ [] ∧ Forall (λ c, Re.is_space c = true) ws1 ∧
    ws2 ≠ [] ∧ Forall (λ c, Re.is_space c = true) ws2 ∧
    (j = py "can be written as" ∨ j = [ARROW]).
Proof.
  apply (suggestion_shape written_as_message). reflexivity.
Defined.

(** X14. A problem that is not a canonical-class suggestion yields no
    fix: the fixes parsed are those of the export without it; and there
    is at most one fix for each problem. *)
Theorem other_suggestions_are_dropped ps1 q ps2 :
  Findings.not_canonical q →
  parse_loop (ps1 ++ q :: ps2) = parse_loop (ps1 ++ ps2) ∧
  ∀ fixes, parse_loop (ps1 ++ ps2) = Ok fixes →
           (length fixes ≤ length (ps1 ++ ps2))%nat.
Proof.
  intros Hq. split; [|apply parse_loop_length].
  rewrite !parse_loop_app. cbn [parse_loop].
  rewrite not_canonical_skipped by done. cbn [mbind result_bind].
  destruct (parse_loop ps1) as [fixes1|e]; [|done]. cbn [mbind result_bind].
  by destruct (parse_loop ps2).
Qed.

Lemma other_suggestions_are_dropped_witness :
  parse_loop ([left_problem] ++ other_rule_problem :: [right_problem])
    = parse_loop ([left_problem] ++ [right_problem]) ∧
  ∀ fixes, parse_loop ([left_problem] ++ [right_problem]) = Ok fixes →
           (length fixes ≤ length ([left_problem] ++ [right_problem]))%nat.
Proof.
  apply (other_suggestions_are_dropped [left_problem] other_rule_problem
           [right_problem]).
  eexists. split; [reflexivity|]. by left.
Defined.


(** X16. What an applied fix writes reads back, on the same host, as
    the lines read before with the one line edited, when the new class
    holds no line-break character: the number of lines is kept, whatever
    terminators the file had. *)
Theorem written_file_reads_back plat fs f fs' :
  apply_fix plat fs f = (fs', Fixed) →
  Forall (λ c, is_linebreak c = false) (new_class f) →
  ∃ content line_content written,
    fs !! file_path f = Some content ∧
    splitlines (universal_newlines content) !! Z.to_nat (line f)
      = Some line_content ∧
    fs' !! file_path f = Some written ∧
    splitlines (universal_newlines written)
      = <[Z.to_nat (line f) :=
            slice_to line_content (col_start f) ++ new_class f ++
            slice_from line_content (col_end f)]>
          (splitlines (universal_newlines content)).
Proof.
  intros (content & lc & Hfile & Hrange & Hline & _ & _ & _ & ->)%apply_fix_Fixed
    Hnew.
  exists content, lc. eexists. split; [done|]. split; [done|].
  split; [apply lookup_insert_eq|].
  set (lines := splitlines (universal_newlines content)) in *.
  set (new_line := slice_to lc (col_start f) ++ new_class f ++
                   slice_from lc (col_end f)).
  assert (Forall (Forall (λ c, is_linebreak c = false))
            (<[Z.to_nat (line f) := new_line]> lines)) as Hlines.
  { pose proof (splitlines_no_break (universal_newlines content)) as Hall.
    apply Forall_insert; [done|].
    rewrite Forall_lookup in Hall. specialize (Hall _ _ Hline).
    unfold new_line, slice_to, slice_from. rewrite !Forall_app.
    split_and!; [|done|].
    - eapply Forall_forall. intros c Hc%subseteq_take.
      rewrite Forall_forall in Hall. by apply Hall.
    - eapply Forall_forall. intros c Hc%subseteq_drop.
      rewrite Forall_forall in Hall. by apply Hall. }
  rewrite read_write_newlines.
  - apply splitlines_join; [|done].
    apply lookup_lt_Some in Hline. intros Hnil.
    apply (f_equal length) in Hnil. rewrite length_insert in Hnil.
    simpl in Hnil. lia.
  - rewrite elem_of_app, list_elem_of_singleton. intros [Hin|?]; [|done].
    revert Hin. apply join_no_cr. eapply Forall_impl; [done|].
    intros l Hl Hin. rewrite Forall_forall in Hl. by apply Hl in Hin.
Qed.

Lemma written_file_reads_back_witness :
  ∃ content line_content written,
    crlf_class_file !! py "k:/app.html" = Some content ∧
    splitlines (universal_newlines content) !! 0%nat = Some line_content ∧
    lf_class_file !! py "k:/app.html" = Some written ∧
    splitlines (universal_newlines written)
      = <[0%nat := slice_to line_content 0 ++ py "xxxx" ++
                   slice_from line_content 2]>
          (splitlines (universal_newlines content)).
Proof.
  apply (written_file_reads_back Posix crlf_class_file left_fix lf_class_file).
  - vm_compute. reflexivity.
  - by repeat constructor.
Defined.

(** X17. When the export loads and holds no canonical-class
    suggestion, the script leaves through [exit(0)] before it opens any
    file: the exit status is 0 and the file system is what it was. *)
Theorem no_suggestion_no_write json_loads plat fs problems_file text problems :
  fs !! problems_file = Some text →
  json_loads text = Some (JList problems) →
  Forall Findings.not_canonical problems →
  main json_loads plat fs problems_file = (Raise (SystemExit 0), fs) ∧
  run json_loads plat fs problems_file = (0, fs).
Proof.
  intros Hfile Hloads Hother.
  assert (parse_loop problems = Ok []) as Hparse.
  { clear Hloads. induction Hother as [|q qs Hq _ IH]; [done|].
    cbn [parse_loop]. rewrite not_canonical_skipped by done.
    cbn [mbind result_bind]. by rewrite IH. }
  assert (main json_loads plat fs problems_file = (Raise (SystemExit 0), fs))
    as Hmain.
  { unfold main, parse_fixes. rewrite Hfile, Hloads.
    cbn [Json.iterate mbind result_bind]. by rewrite Hparse. }
  split; [done|]. unfold run. by rewrite Hmain.
Qed.

Lemma no_suggestion_no_write_witness :
  main loads_two_file_export Windows project_with_export (py "problems.json")
    = (Raise (SystemExit 0), project_with_export) ∧
  run loads_two_file_export Windows project_with_export (py "problems.json")
    = (0, project_with_export).
Proof.
  apply (no_suggestion_no_write loads_two_file_export Windows
           project_with_export (py "problems.json") (py "[...]")
           two_file_export).
  - vm_compute. reflexivity.
  - reflexivity.
  - repeat constructor; eexists; (split; [reflexivity|]); by left.
Defined.

End FurtherSyntax.

(** ** One finding per line *)

Module DistinctFacts.
Import Py PyFacts FixIndentation IndentFacts OrderFacts SkipFacts PassFacts.




Lemma NoDup_fmap_eq {A B} (f : A → B) (l : list A) a b :
  NoDup (f <$> l) → a ∈ l → b ∈ l → f a = f b → a = b.
Proof.
  induction l as [|x l IH]; intros Hdup Ha Hb Heq.
  { by apply elem_of_nil in Ha. }
  rewrite fmap_cons in Hdup. apply NoDup_cons in Hdup as [Hx Hdup].
  apply elem_of_cons in Ha as [->|Ha]; apply elem_of_cons in Hb as [->|Hb];
    try done.
  - destruct Hx. rewrite Heq. by apply list_elem_of_fmap_2.
  - destruct Hx. rewrite <- Heq. by apply list_elem_of_fmap_2.
  - by apply IH.
Qed.

(** Two descending arrangements of the same entries, no two of them with
    the same key, are the same list. *)
Lemma descending_unique (l1 l2 : list entry) :
  StronglySorted (λ a b, key b ≤ key a) l1 →
  StronglySorted (λ a b, key b ≤ key a) l2 →
  l1 ≡ₚ l2 → NoDup (key <$> l1) → l1 = l2.
Proof.
  intros Hs1. revert l2. induction Hs1 as [|a l1 Hs1 IH Ha]; intros l2 Hs2 Hperm Hdup.
  { by apply Permutation_nil_l in Hperm. }
  destruct Hs2 as [|b l2 Hs2 Hb].
  { by apply Permutation_nil_r in Hperm. }
  assert (a = b) as <-.
  { assert (a ∈ b :: l2) as Ha2 by (rewrite <- Hperm; by left).
    assert (b ∈ a :: l1) as Hb1 by (rewrite Hperm; by left).
    apply elem_of_cons in Ha2 as [?|Ha2]; [done|].
    apply elem_of_cons in Hb1 as [?|Hb1]; [done|].
    rewrite Forall_forall in Ha, Hb.
    apply (NoDup_fmap_eq key (a :: l1)); [done|by left|by right|].
    pose proof (Ha b Hb1). pose proof (Hb a Ha2). lia. }
  f_equal. apply IH; [done|by apply (inj (cons a))|].
  rewrite fmap_cons in Hdup. by apply NoDup_cons in Hdup as [_ ?].
Qed.

Lemma keys_distinct (ps : list entry) :
  Forall (λ p, is_Some (line_number p)) ps →
  NoDup (line_number <$> ps) → NoDup (key <$> ps).
Proof.
  induction 1 as [|p ps [n Hn] Hints IH]; intros Hdup; [constructor|].
  rewrite fmap_cons in *. apply NoDup_cons in Hdup as [Hp Hdup].
  apply NoDup_cons. split; [|by apply IH].
  intros (q & Hkey & Hq)%list_elem_of_fmap. apply Hp.
  apply list_elem_of_fmap. exists q. split; [|done].
  rewrite Forall_forall in Hints. destruct (Hints q Hq) as [m Hm].
  unfold key in Hkey. rewrite Hn, Hm in Hkey. simpl in Hkey.
  rewrite Hn, Hm. by f_equal.
Qed.

(** The sort gives one order to every arrangement of entries with
    distinct line numbers. *)
Lemma sort_order_irrelevant ps ps' :
  ps ≡ₚ ps' →
  Forall (λ p, is_Some (line_number p)) ps →
  NoDup (line_number <$> ps) →
  foldr insert_desc [] ps = foldr insert_desc [] ps'.
Proof.
  intros Hperm Hints Hdup. apply descending_unique.
  - apply sort_sorted.
  - apply sort_sorted.
  - by rewrite !sort_perm.
  - rewrite sort_perm. by apply keys_distinct.
Qed.

Lemma fix_lines_order_irrelevant lines ps ps' :
  ps ≡ₚ ps' → NoDup (line_number <$> ps) →
  fix_lines lines ps = fix_lines lines ps'.
Proof.
  intros Hperm Hdup.
  destruct (decide (Forall (λ p, is_Some (line_number p)) ps))
    as [Hints|Hnot].
  - rewrite !fix_lines_all_int; [|by rewrite <- Hperm|done].
    by rewrite (sort_order_irrelevant ps ps').
  - apply not_Forall_Exists in Hnot; [|apply _].
    apply Exists_exists in Hnot as (q & Hq & Hkey).
    assert (line_number q = None) as Hnone.
    { destruct (line_number q) eqn:E; [|done]. destruct Hkey.
      rewrite E. by eexists. }
    rewrite (fix_lines_not_int _ ps q) by done.
    symmetry. apply (fix_lines_not_int _ _ q); [|done]. by rewrite <- Hperm.
Qed.

End DistinctFacts.

(** ** More of the indentation fixer: one finding per line *)

Section FurtherFixer.
Import Py PyFacts IndentFacts OrderFacts SkipFacts PassFacts DistinctFacts.
Import FixIndentation Samples.



(** X19. With at most one entry per line number, the order of the
    entries does not matter: [fix_file_indentation] returns the same flag
    and leaves the same files for every arrangement of them. *)
Theorem indentation_fix_order_irrelevant fs file_path problems problems' :
  problems ≡ₚ problems' →
  NoDup (line_number <$> problems) →
  fix_file_indentation fs file_path problems
    = fix_file_indentation fs file_path problems'.
Proof.
  intros Hperm Hdup. unfold fix_file_indentation.
  destruct (fs !! file_path) as [content|]; [|done].
  by rewrite (fix_lines_order_irrelevant _ problems problems').
Qed.

Lemma indentation_fix_order_irrelevant_witness :
  fix_file_indentation crlf_indent_project (py "src/a.js") distinct_entries
    = fix_file_indentation crlf_indent_project (py "src/a.js")
        (reverse distinct_entries).
Proof.
  apply indentation_fix_order_irrelevant.
  - symmetry. apply reverse_Permutation.
  - apply (bool_decide_unpack _). by vm_compute.
Defined.

End FurtherFixer.

(** ** From the export to the file *)

Module RunFacts.
Import Py PyFacts FixIndentation IndentFacts ReFacts.




End RunFacts.

(** ** Whole runs *)

Section WholeRuns.
Import Py PyFacts SyntaxFacts IndentFacts MessageFacts RunFacts Samples.





End WholeRuns.

(** ** The line-ending converter: bytes *)

Module BytesFacts.
Import Py PyFacts LineFacts ConvertCrlf.

Lemma replace_crlf_cons2 c c' rest :
  replace_crlf (c :: c' :: rest) =
    if (c =? CR)%N && (c' =? LF)%N then LF :: replace_crlf rest
    else c :: replace_crlf (c' :: rest).
Proof. reflexivity. Qed.

Lemma contains_cons old c s :
  contains old (c :: s) = startswith old (c :: s) || contains old s.
Proof. reflexivity. Qed.

(** How the converted bytes begin. *)
Lemma replace_crlf_head s :
  startswith [LF] (replace_crlf s)
    = startswith [CR; LF] s || startswith [LF] s.
Proof.
  destruct s as [|c [|c' rest]]; [done| |].
  - cbn [replace_crlf startswith]. by rewrite !andb_false_r.
  - rewrite replace_crlf_cons2. cbn [startswith].
    rewrite (N.eqb_sym CR c), !(N.eqb_sym LF c'), !andb_true_r.
    destruct (c =? CR)%N eqn:Ec.
    + apply N.eqb_eq in Ec as ->.
      destruct (c' =? LF)%N eqn:Ec'; cbn [andb orb startswith].
      * by rewrite N.eqb_refl.
      * change (LF =? CR)%N with false. done.
    + cbn [andb orb startswith]. by rewrite andb_true_r, N.eqb_sym.
Qed.

Lemma startswith_cons a p b s :
  startswith (a :: p) (b :: s) = (a =? b)%N && startswith p s.
Proof. reflexivity. Qed.

Lemma replace_crlf_contains s :
  contains [CR; LF] (replace_crlf s) = contains [CR; CR; LF] s.
Proof.
  induction s as [[|c [|c' rest]] IH] using str_length_ind; [done| |].
  - cbn. by rewrite !andb_false_r.
  - rewrite replace_crlf_cons2.
    destruct ((c =? CR)%N && (c' =? LF)%N) eqn:E.
    + apply andb_true_iff in E as [->%N.eqb_eq ->%N.eqb_eq].
      rewrite !contains_cons, IH by (simpl; lia). done.
    + rewrite (contains_cons _ c (c' :: rest)), contains_cons.
      rewrite IH by (simpl; lia). f_equal.
      rewrite !(startswith_cons CR), replace_crlf_head.
      destruct (CR =? c)%N eqn:Ec; [|done]. cbn [andb].
      apply N.eqb_eq in Ec as <-. rewrite N.eqb_refl in E. cbn [andb] in E.
      rewrite (startswith_cons LF), (N.eqb_sym LF c'), E.
      by rewrite orb_false_r.
Qed.

(** Bytes without a CR LF pair are returned as they are. *)
Lemma replace_crlf_id s : contains [CR; LF] s = false → replace_crlf s = s.
Proof.
  induction s as [[|c [|c' rest]] IH] using str_length_ind; [done..|].
  rewrite contains_cons. intros [Hhere Hrest]%orb_false_iff.
  rewrite replace_crlf_cons2.
  cbn [startswith] in Hhere. rewrite andb_true_r in Hhere.
  rewrite (N.eqb_sym CR c), (N.eqb_sym LF c') in Hhere. rewrite Hhere.
  f_equal. apply IH; [simpl; lia|done].
Qed.

(** Only CRs are taken out. *)
Lemma replace_crlf_filter s :
  filter (λ c, c ≠ CR) (replace_crlf s) = filter (λ c, c ≠ CR) s.
Proof.
  induction s as [[|c [|c' rest]] IH] using str_length_ind; [done..|].
  rewrite replace_crlf_cons2.
  destruct ((c =? CR)%N && (c' =? LF)%N) eqn:E.
  - apply andb_true_iff in E as [->%N.eqb_eq ->%N.eqb_eq].
    rewrite (filter_cons_False _ CR) by (intros H; by apply H).
    rewrite !filter_cons_True by done.
    f_equal. apply IH. simpl; lia.
  - rewrite !(filter_cons _ c). rewrite IH by (simpl; lia). done.
Qed.

Lemma replace_crlf_length s : (length (replace_crlf s) ≤ length s)%nat.
Proof.
  induction s as [[|c [|c' rest]] IH] using str_length_ind; [done..|].
  rewrite replace_crlf_cons2.
  pose proof (IH rest). pose proof (IH (c' :: rest)).
  destruct ((c =? CR)%N && (c' =? LF)%N); simpl in *; lia.
Qed.

End BytesFacts.

(** ** The line-ending converter: names *)

Module SuffixFacts.
Import Py PyFacts SyntaxFacts ConvertCrlf.

Lemma rfind_dot_None name : rfind_dot name = None ↔ (DOT ∉ name).
Proof.
  induction name as [|c name IH]; simpl.
  { split; [intros _; apply not_elem_of_nil|done]. }
  destruct (rfind_dot name) as [i|].
  - split; [done|]. intros Hc. apply not_elem_of_cons in Hc as [_ Hc].
    by apply IH in Hc.
  - destruct (N.eqb_spec c DOT) as [->|Hne].
    + split; [done|]. intros Hc. destruct Hc. by left.
    + split; [|done]. intros _. apply not_elem_of_cons.
      split; [done|]. by apply IH.
Qed.

Lemma rfind_dot_app pre post :
  DOT ∉ post → rfind_dot (pre ++ DOT :: post) = Some (len pre).
Proof.
  intros Hpost. induction pre as [|c pre IH]; simpl.
  - apply rfind_dot_None in Hpost as ->. done.
  - rewrite IH. f_equal. unfold len. simpl. lia.
Qed.

Lemma rfind_dot_Some name i :
  rfind_dot name = Some i →
  ∃ pre post, name = pre ++ DOT :: post ∧ (DOT ∉ post) ∧ i = len pre.
Proof.
  revert i. induction name as [|c name IH]; intros i; simpl; [done|].
  destruct (rfind_dot name) as [j|] eqn:Hj.
  - intros [= <-]. destruct (IH j eq_refl) as (pre & post & -> & Hpost & ->).
    exists (c :: pre), post. repeat split; [done|]. unfold len. simpl. lia.
  - destruct (c =? DOT)%N eqn:Hc; [|done]. apply N.eqb_eq in Hc as ->.
    intros [= <-]. exists [], name. repeat split. by apply rfind_dot_None.
Qed.

(** The suffix of a name with a stem, a dot and an extension. *)
Lemma suffix_app stem e :
  stem ≠ [] → e ≠ [] → DOT ∉ e → suffix (stem ++ DOT :: e) = DOT :: e.
Proof.
  intros Hstem He Hdot. unfold suffix. rewrite rfind_dot_app by done.
  pose proof (len_nonneg stem).
  assert (0 < len stem) by (destruct stem; [done|unfold len; simpl; lia]).
  assert (0 < len e) by (destruct e; [done|unfold len; simpl; lia]).
  replace ((0 <? len stem) && (len stem <? len (stem ++ DOT :: e) - 1))
    with true.
  - apply slice_from_suffix.
  - symmetry. apply andb_true_iff.
    rewrite len_app. unfold len in *. simpl length.
    split; [apply Z.ltb_lt|apply Z.ltb_lt]; lia.
Qed.

Lemma suffix_inv name :
  suffix name ≠ [] →
  ∃ stem e, name = stem ++ DOT :: e ∧ suffix name = DOT :: e ∧
            stem ≠ [] ∧ e ≠ [] ∧ (DOT ∉ e).
Proof.
  unfold suffix. destruct (rfind_dot name) as [i|] eqn:Hi; [|done].
  apply rfind_dot_Some in Hi as (pre & post & -> & Hpost & ->).
  destruct ((0 <? len pre) && (len pre <? len (pre ++ DOT :: post) - 1))
    eqn:Hrange; [|done].
  intros _. apply andb_true_iff in Hrange as [H0%Z.ltb_lt H1%Z.ltb_lt].
  exists pre, post. rewrite slice_from_suffix.
  rewrite len_app in H1. unfold len in H0, H1. simpl in H1.
  repeat split; try done.
  - intros ->. simpl in H0. lia.
  - intros ->. simpl in H1. lia.
Qed.

(** Every listed extension is a dot followed by a non-empty run without
    a dot. *)
Lemma extensions_shape ext :
  ext ∈ PROCESSABLE_EXTENSIONS →
  ∃ e, ext = DOT :: e ∧ e ≠ [] ∧ (DOT ∉ e).
Proof.
  assert (Forall (λ ext, ∃ e, ext = DOT :: e ∧ e ≠ [] ∧ (DOT ∉ e))
            PROCESSABLE_EXTENSIONS) as Hall.
  { repeat constructor;
      (eexists; split; [reflexivity|split; [done|]];
       apply (bool_decide_unpack _); by vm_compute). }
  rewrite Forall_forall in Hall. apply Hall.
Qed.

End SuffixFacts.

(** ** The line-ending converter: the walk *)

Module ScanFacts.
Import Py PyFacts ConvertCrlf Walk BytesFacts.

Lemma dir_ind' (P : dir → Prop) :
  (∀ dirs files, Forall (λ nd, P nd.2) dirs → P (Dir dirs files)) →
  ∀ root, P root.
Proof.
  intros H. fix IH 1. intros [dirs files]. apply H.
  induction dirs as [|[d sub] dirs IHdirs]; constructor; [apply IH|done].
Qed.

Lemma scan_Dir dirs files c :
  scan (Dir dirs files) c =
    let '(files', c) := scan_files files c in
    let '(dirs', c) := scan_dirs scan dirs c in
    (Dir dirs' files', c).
Proof. reflexivity. Qed.

Lemma scan_dirs_cons d sub dirs c :
  scan_dirs scan ((d, sub) :: dirs) c =
    if bool_decide (d ∈ SKIP_DIRS) then
      let '(dirs'', c) := scan_dirs scan dirs c in ((d, sub) :: dirs'', c)
    else
      let '(sub', c) := scan sub c in
      let '(dirs'', c) := scan_dirs scan dirs c in
      ((d, sub') :: dirs'', c).
Proof. reflexivity. Qed.

Lemma all_files_Dir dirs files :
  all_files (Dir dirs files) =
    ((λ nf, ([nf.1], nf.2)) <$> files) ++
    concat ((λ nd, (λ pf, (nd.1 :: pf.1, pf.2)) <$> all_files nd.2)
              <$> dirs).
Proof. reflexivity. Qed.

Lemma all_files_nonempty root :
  Forall (λ pf, pf.1 ≠ []) (all_files root).
Proof.
  induction root as [dirs files IH] using dir_ind'.
  rewrite all_files_Dir. apply Forall_app. split.
  - apply Forall_fmap, Forall_true. done.
  - apply Forall_concat, Forall_fmap, Forall_true. intros [d sub]. simpl.
    apply Forall_fmap, Forall_true. done.
Qed.

Lemma visited_cons d path :
  path ≠ [] →
  visited (d :: path) = negb (bool_decide (d ∈ SKIP_DIRS)) && visited path.
Proof. by destruct path. Qed.

(** What the loop leaves of one file. *)
Lemma scan_file_file name f c :
  (scan_file name f c).1
    = if should_process_file name then (convert_to_lf f).2 else f.
Proof.
  unfold scan_file. destruct (should_process_file name); [|done]. simpl.
  unfold has_crlf, convert_to_lf. destruct f as [content readable writable].
  simpl. destruct readable; [|done].
  destruct (contains [CR; LF] content) eqn:Hcrlf.
  - by destruct writable.
  - rewrite replace_crlf_id by done. by destruct writable.
Qed.

End ScanFacts.

(** ** The line-ending converter: the tree *)

Module TreeFacts.
Import Py PyFacts ConvertCrlf Walk BytesFacts ScanFacts.

Lemma scan_files_files files c :
  (λ nf : str * file, ([nf.1], nf.2)) <$> (scan_files files c).1
    = left_by_scan <$> ((λ nf, ([nf.1], nf.2)) <$> files).
Proof.
  revert c. induction files as [|[name f] files IH]; intros c; [done|].
  cbn [scan_files].
  pose proof (scan_file_file name f c) as Hfile.
  destruct (scan_file name f c) as [f' c1]. simpl in Hfile.
  specialize (IH c1). destruct (scan_files files c1) as [files' c2].
  cbn [fst snd] in *. rewrite !fmap_cons, IH.
  unfold left_by_scan at 2. cbn [fst snd visited]. by rewrite Hfile.
Qed.

Lemma left_by_scan_skipped d (l : list (list str * file)) :
  d ∈ SKIP_DIRS → Forall (λ pf, pf.1 ≠ []) l →
  left_by_scan <$> ((λ pf, (d :: pf.1, pf.2)) <$> l)
    = (λ pf, (d :: pf.1, pf.2)) <$> l.
Proof.
  intros Hd Hne. rewrite <- list_fmap_compose. apply Forall_fmap_ext.
  eapply Forall_impl; [done|]. intros [p f] Hp.
  unfold left_by_scan, compose. cbn [fst snd] in *.
  rewrite visited_cons by done.
  by rewrite bool_decide_eq_true_2.
Qed.

Lemma left_by_scan_entered d (l : list (list str * file)) :
  d ∉ SKIP_DIRS → Forall (λ pf, pf.1 ≠ []) l →
  left_by_scan <$> ((λ pf, (d :: pf.1, pf.2)) <$> l)
    = (λ pf, (d :: pf.1, pf.2)) <$> (left_by_scan <$> l).
Proof.
  intros Hd Hne. rewrite <- !list_fmap_compose. apply Forall_fmap_ext.
  eapply Forall_impl; [done|]. intros [p f] Hp.
  unfold left_by_scan, compose. cbn [fst snd] in *.
  rewrite visited_cons by done.
  by rewrite bool_decide_eq_false_2.
Qed.

Lemma scan_all_files root c :
  all_files (scan root c).1 = left_by_scan <$> all_files root.
Proof.
  revert c. induction root as [dirs files IH] using dir_ind'. intros c.
  rewrite scan_Dir.
  pose proof (scan_files_files files c) as Hfiles.
  destruct (scan_files files c) as [files' c1]. simpl in Hfiles.
  assert (∀ c,
    concat ((λ nd, (λ pf, (nd.1 :: pf.1, pf.2)) <$> all_files nd.2)
              <$> (scan_dirs scan dirs c).1)
    = left_by_scan <$>
        concat ((λ nd, (λ pf, (nd.1 :: pf.1, pf.2)) <$> all_files nd.2)
                  <$> dirs)) as Hdirs.
  { clear Hfiles c1 files' c.
    induction IH as [|[d sub] dirs Hsub _ IHdirs]; intros c; [done|].
    rewrite scan_dirs_cons. cbn [snd] in Hsub.
    case_bool_decide as Hd.
    - specialize (IHdirs c). destruct (scan_dirs scan dirs c) as [dirs' c2].
      cbn [fst snd] in *. rewrite !fmap_cons. cbn [concat fst snd].
      rewrite fmap_app, IHdirs. f_equal.
      symmetry. apply left_by_scan_skipped; [done|apply all_files_nonempty].
    - specialize (Hsub c). destruct (scan sub c) as [sub' c2].
      specialize (IHdirs c2). destruct (scan_dirs scan dirs c2) as [dirs' c3].
      cbn [fst snd] in *. rewrite !fmap_cons. cbn [concat fst snd].
      rewrite fmap_app, IHdirs, Hsub. f_equal.
      symmetry. apply left_by_scan_entered; [done|apply all_files_nonempty]. }
  specialize (Hdirs c1). destruct (scan_dirs scan dirs c1) as [dirs' c2].
  cbn [fst snd] in *. rewrite !all_files_Dir, fmap_app.
  by rewrite Hfiles, Hdirs.
Qed.

(** ** The counters *)

Lemma filter_fmap {A B} (f : A → B) (P : B → Prop)
    `{!∀ x, Decision (P x)} (l : list A) :
  filter P (f <$> l) = f <$> filter (P ∘ f) l.
Proof.
  induction l as [|x l IH]; [done|]. rewrite fmap_cons, !filter_cons.
  simpl. case_decide; by rewrite IH.
Qed.

Lemma length_filter_ext {A} (P Q : A → Prop)
    `{!∀ x, Decision (P x)} `{!∀ x, Decision (Q x)} (l : list A) :
  Forall (λ x, P x ↔ Q x) l → length (filter P l) = length (filter Q l).
Proof.
  induction 1 as [|x l Hx _ IH]; [done|]. rewrite !filter_cons.
  destruct (decide (P x)), (decide (Q x)); simpl; try lia; tauto.
Qed.

Lemma filter_none {A} (P : A → Prop) `{!∀ x, Decision (P x)} (l : list A) :
  Forall (λ x, ¬ P x) l → filter P l = [].
Proof.
  induction 1 as [|x l Hx _ IH]; [done|]. by rewrite filter_cons_False.
Qed.

Section Counter.
(** One counter [g], which the loop raises for the files that [Q]
    holds of. *)
Variable g : counters → Z.
Variable Q : file → bool.
Hypothesis scan_file_g : ∀ name f c,
  g (scan_file name f c).2
    = g c + (if should_process_file name && Q f then 1 else 0).

Let counted := Walk.counted Q.

Lemma scan_files_g files c :
  g (scan_files files c).2
    = g c + len (filter counted ((λ nf, ([nf.1], nf.2)) <$> files)).
Proof using All.
  revert c. induction files as [|[name f] files IH]; intros c.
  { unfold len. simpl. lia. }
  cbn [scan_files]. pose proof (scan_file_g name f c) as Hstep.
  destruct (scan_file name f c) as [f' c1]. simpl in Hstep.
  specialize (IH c1). destruct (scan_files files c1) as [files' c2].
  simpl in IH. cbn [snd]. rewrite IH, Hstep, fmap_cons, filter_cons.
  destruct (should_process_file name && Q f) eqn:E; unfold len.
  - rewrite decide_True; [simpl length; lia|].
    unfold counted, Walk.counted. cbn [fst snd visited]. by rewrite E.
  - rewrite decide_False; [lia|].
    unfold counted, Walk.counted. cbn [fst snd visited]. rewrite E.
    by intros [].
Qed.

Lemma scan_g root c :
  g (scan root c).2 = g c + len (filter counted (all_files root)).
Proof using All.
  revert c. induction root as [dirs files IH] using dir_ind'. intros c.
  rewrite scan_Dir, all_files_Dir, filter_app.
  pose proof (scan_files_g files c) as Hfiles.
  destruct (scan_files files c) as [files' c1]. simpl in Hfiles.
  assert (∀ c,
    g (scan_dirs scan dirs c).2
    = g c + len (filter counted
        (concat ((λ nd, (λ pf, (nd.1 :: pf.1, pf.2)) <$> all_files nd.2)
                   <$> dirs)))) as Hdirs.
  { clear Hfiles c1 files' c.
    induction IH as [|[d sub] dirs Hsub _ IHdirs]; intros c.
    { unfold len. simpl. lia. }
    rewrite scan_dirs_cons. simpl in Hsub.
    rewrite fmap_cons. cbn [concat]. rewrite filter_app, filter_fmap.
    cbn [fst snd]. unfold len in *. rewrite length_app, length_fmap.
    case_bool_decide as Hd.
    - specialize (IHdirs c). destruct (scan_dirs scan dirs c) as [dirs' c2].
      simpl in *. rewrite IHdirs.
      rewrite (filter_none (counted ∘ _)); [simpl; lia|].
      eapply Forall_impl; [apply all_files_nonempty|].
      intros [p f] Hp. unfold counted, Walk.counted, compose.
      cbn [fst snd] in *. rewrite visited_cons by done.
      rewrite bool_decide_eq_true_2 by done. by intros [].
    - specialize (Hsub c). destruct (scan sub c) as [sub' c2].
      specialize (IHdirs c2). destruct (scan_dirs scan dirs c2) as [dirs' c3].
      simpl in *. rewrite IHdirs, Hsub.
      rewrite (length_filter_ext (counted ∘ _) counted); [lia|].
      eapply Forall_impl; [apply all_files_nonempty|].
      intros [p f] Hp. unfold counted, Walk.counted, compose.
      cbn [fst snd] in *. rewrite visited_cons by done.
      by rewrite bool_decide_eq_false_2. }
  specialize (Hdirs c1). destruct (scan_dirs scan dirs c1) as [dirs' c2].
  simpl in *. rewrite Hdirs, Hfiles. unfold len. rewrite length_app. lia.
Qed.

End Counter.

(** ** A second walk *)

Lemma scan_file_again name f c c' :
  contains [CR; CR; LF] (content f) = false →
  let f' := (scan_file name f c).1 in
  (scan_file name f' c').1 = f' ∧
  converted_count (scan_file name f' c').2 = converted_count c'.
Proof.
  intros Hcr. cbn zeta. rewrite (scan_file_file name f c).
  unfold scan_file at 1 2.
  destruct (should_process_file name) eqn:Hname; [|done]. cbn [negb].
  destruct f as [content [|] writable]; unfold has_crlf, convert_to_lf;
    cbn [ConvertCrlf.content readable ConvertCrlf.writable snd] in *;
    [|done].
  destruct writable;
    cbn [ConvertCrlf.content readable ConvertCrlf.writable snd].
  - rewrite replace_crlf_contains, Hcr. done.
  - destruct (contains [CR; LF] content); done.
Qed.

Lemma scan_files_again files c c' :
  Forall (λ nf, contains [CR; CR; LF] (content nf.2) = false) files →
  let files' := (scan_files files c).1 in
  (scan_files files' c').1 = files' ∧
  converted_count (scan_files files' c').2 = converted_count c'.
Proof.
  intros Hcr. revert c c'.
  induction Hcr as [|[name f] files Hf _ IH]; intros c c'; [done|].
  cbn [scan_files]. simpl in Hf.
  pose proof (λ c', scan_file_again name f c c' Hf) as Hagain.
  destruct (scan_file name f c) as [f1 c1]. simpl in Hagain.
  specialize (IH c1). destruct (scan_files files c1) as [files1 c2].
  simpl in *. destruct (Hagain c') as [Hsame Hcount].
  destruct (scan_file name f1 c') as [f2 c3]. simpl in *. subst f2.
  destruct (IH c3) as [Hsame' Hcount'].
  destruct (scan_files files1 c3) as [files2 c4]. simpl in *. subst files2.
  split; [done|congruence].
Qed.

Lemma scan_again root c c' :
  Forall (λ pf, contains [CR; CR; LF] (content pf.2) = false)
    (all_files root) →
  let root' := (scan root c).1 in
  (scan root' c').1 = root' ∧
  converted_count (scan root' c').2 = converted_count c'.
Proof.
  revert c c'. induction root as [dirs files IH] using dir_ind'.
  intros c c' Hcr. rewrite all_files_Dir in Hcr.
  apply Forall_app in Hcr as [Hfiles Hdirs].
  rewrite Forall_fmap in Hfiles.
  rewrite scan_Dir.
  pose proof (λ c', scan_files_again files c c' Hfiles) as Hagain.
  destruct (scan_files files c) as [files1 c1]. simpl in Hagain.
  assert (∀ c c',
    let dirs' := (scan_dirs scan dirs c).1 in
    (scan_dirs scan dirs' c').1 = dirs' ∧
    converted_count (scan_dirs scan dirs' c').2 = converted_count c')
    as Hdirs'.
  { clear Hagain Hfiles c c' c1 files1.
    induction IH as [|[d sub] dirs Hsub _ IHdirs]; intros c c'; [done|].
    rewrite fmap_cons in Hdirs. cbn [concat] in Hdirs.
    apply Forall_app in Hdirs as [Hd Hdirs]. rewrite Forall_fmap in Hd.
    specialize (IHdirs Hdirs). cbn [snd] in Hsub.
    rewrite scan_dirs_cons. case_bool_decide as Hskip.
    - specialize (IHdirs c). destruct (scan_dirs scan dirs c) as [dirs1 c2].
      cbn [fst snd] in *. rewrite scan_dirs_cons, bool_decide_eq_true_2 by done.
      destruct (IHdirs c') as [Hsame Hcount].
      destruct (scan_dirs scan dirs1 c') as [dirs2 c3]. cbn [fst snd] in *.
      by subst dirs2.
    - specialize (Hsub c). destruct (scan sub c) as [sub1 c2].
      specialize (IHdirs c2). destruct (scan_dirs scan dirs c2) as [dirs1 c3].
      cbn [fst snd] in *. rewrite scan_dirs_cons, bool_decide_eq_false_2 by done.
      destruct (Hsub c') as [Hsame Hcount].
      { eapply Forall_impl; [done|]. by intros [p f]. }
      destruct (scan sub1 c') as [sub2 c4]. cbn [fst snd] in *. subst sub2.
      destruct (IHdirs c4) as [Hsame' Hcount'].
      destruct (scan_dirs scan dirs1 c4) as [dirs2 c5]. cbn [fst snd] in *.
      subst dirs2. split; [done|congruence]. }
  specialize (Hdirs' c1). destruct (scan_dirs scan dirs c1) as [dirs1 c2].
  cbn [fst snd] in *. rewrite scan_Dir.
  destruct (Hagain c') as [Hsame Hcount].
  destruct (scan_files files1 c') as [files2 c3]. cbn [fst snd] in *. subst files2.
  destruct (Hdirs' c3) as [Hsame' Hcount'].
  destruct (scan_dirs scan dirs1 c3) as [dirs2 c4]. cbn [fst snd] in *. subst dirs2.
  split; [done|congruence].
Qed.

End TreeFacts.

(** ** The line-ending converter: lines *)

Module ConvertFacts.
Import Py PyFacts LineFacts ConvertCrlf BytesFacts.

Lemma contains_no_cr s : CR ∉ s → contains [CR; LF] s = false.
Proof.
  intros Hcr. apply not_true_is_false.
  intros (pre & post & ->)%contains_spec. apply Hcr.
  apply elem_of_app. right. by left.
Qed.

(** A line without CR and its CR LF. *)
Lemma replace_crlf_line l rest :
  CR ∉ l → replace_crlf (l ++ CR :: LF :: rest) = l ++ LF :: replace_crlf rest.
Proof.
  induction l as [|c l IH]; intros Hcr; [done|].
  apply not_elem_of_cons in Hcr as [Hc Hcr].
  rewrite <- !app_comm_cons.
  assert (∃ c' r, l ++ CR :: LF :: rest = c' :: r) as (c' & r & Hr)
    by (destruct l; by eexists _, _).
  rewrite Hr, replace_crlf_cons2, <- Hr.
  replace (c =? CR)%N with false by (symmetry; by apply N.eqb_neq).
  cbn [andb]. f_equal. by apply IH.
Qed.

Lemma replace_crlf_shorter s :
  contains [CR; LF] s = true → (length (replace_crlf s) < length s)%nat.
Proof.
  induction s as [[|c [|c' rest]] IH] using str_length_ind; [done| |].
  - cbn. by rewrite !andb_false_r.
  - rewrite contains_cons, replace_crlf_cons2.
    destruct ((c =? CR)%N && (c' =? LF)%N) eqn:E.
    + intros _. pose proof (replace_crlf_length rest). simpl. lia.
    + intros [Hhere|Hrest]%orb_true_iff.
      * rewrite !startswith_cons in Hhere.
        rewrite (N.eqb_sym CR c), (N.eqb_sym LF c') in Hhere.
        apply andb_true_iff in Hhere as [Hc Hhere].
        apply andb_true_iff in Hhere as [Hc' _]. by rewrite Hc, Hc' in E.
      * specialize (IH (c' :: rest)). simpl in *.
        apply Nat.succ_lt_mono in IH; [lia|lia|done].
Qed.

End ConvertFacts.

(** ** [convert_crlf_to_lf.py] *)

Section Converter.
Import Py PyFacts ConvertCrlf Walk.
Import BytesFacts SuffixFacts ScanFacts TreeFacts ConvertFacts Samples.

(** X22. One conversion need not remove every CR LF: the bytes
    [convert_to_lf] writes hold a CR LF exactly when the bytes read hold
    CR CR LF. *)
Theorem crlf_left_after_conversion content :
  contains [CR; LF] (replace_crlf content) = true
  ↔ ∃ before after, content = before ++ [CR; CR; LF] ++ after.
Proof. rewrite replace_crlf_contains. apply contains_spec. Qed.

(** X23. Lines without CR, each ended by CR LF, and what follows the
    last of them, are written as the same lines each ended by LF. *)
Theorem crlf_lines_become_lf_lines (lines : list bytes) (rest : bytes) :
  Forall (λ l, CR ∉ l) lines → CR ∉ rest →
  replace_crlf (concat ((λ l, l ++ [CR; LF]) <$> lines) ++ rest)
    = concat ((λ l, l ++ [LF]) <$> lines) ++ rest.
Proof.
  intros Hlines Hrest. induction Hlines as [|l lines Hl _ IH].
  - apply replace_crlf_id. by apply contains_no_cr.
  - rewrite !fmap_cons. cbn [concat]. rewrite <- !app_assoc.
    cbn [app]. rewrite replace_crlf_line by done. by rewrite IH.
Qed.

Lemma crlf_lines_become_lf_lines_witness :
  replace_crlf
      (concat ((λ l, l ++ [CR; LF]) <$> [py "a"; []; py "b"]) ++ py "c")
    = concat ((λ l, l ++ [LF]) <$> [py "a"; []; py "b"]) ++ py "c".
Proof.
  apply (crlf_lines_become_lf_lines [py "a"; []; py "b"] (py "c"));
    apply (bool_decide_unpack _); by vm_compute.
Defined.

(** X24. The conversion takes out CRs and nothing else: without the CRs
    the bytes written are the bytes read without the CRs; and the bytes
    written are the bytes read exactly when these hold no CR LF. *)
Theorem conversion_removes_only_cr content :
  filter (λ c, c ≠ CR) (replace_crlf content) = filter (λ c, c ≠ CR) content ∧
  (replace_crlf content = content ↔ contains [CR; LF] content = false).
Proof.
  split; [apply replace_crlf_filter|]. split; [|apply replace_crlf_id].
  intros Hsame. apply not_true_is_false. intros Hcrlf.
  apply replace_crlf_shorter in Hcrlf. rewrite Hsame in Hcrlf. lia.
Qed.

(** X25. [should_process_file] accepts a regular file exactly when its
    name is a non-empty stem followed by one of the listed extensions, or
    is [.gitignore], [.eslintrc] or [.cursorrules]. So a file whose whole
    name is a listed extension, such as [.env], is accepted only if it is
    [.gitignore] or [.eslintrc]. *)
Theorem processed_names :
  (∀ name,
     should_process_file name = true
     ↔ (∃ stem ext, name = stem ++ ext ∧ stem ≠ [] ∧
                    ext ∈ PROCESSABLE_EXTENSIONS)
       ∨ name ∈ [py ".gitignore"; py ".eslintrc"; py ".cursorrules"]) ∧
  (∀ ext, ext ∈ PROCESSABLE_EXTENSIONS →
     should_process_file ext
       = bool_decide (ext ∈ [py ".gitignore"; py ".eslintrc"])).
Proof.
  split.
  2: { assert (Forall (λ ext, should_process_file ext
                 = bool_decide (ext ∈ [py ".gitignore"; py ".eslintrc"]))
                PROCESSABLE_EXTENSIONS) as Hall.
       { apply (bool_decide_unpack _). by vm_compute. }
       rewrite Forall_forall in Hall. apply Hall. }
  intros name. unfold should_process_file. split.
  - case_bool_decide as Hext; [intros _; left|].
    + destruct (suffix_inv name) as (stem & e & Hname & Hsuffix & Hstem & _).
      { intros Hnil. rewrite Hnil in Hext. revert Hext.
        apply (bool_decide_unpack _). by vm_compute. }
      exists stem, (suffix name). split; [by rewrite Hsuffix|done].
    + case_bool_decide; [by right|done].
  - intros [(stem & ext & -> & Hstem & Hext)|Hname].
    + destruct (extensions_shape ext Hext) as (e & -> & He & Hdot).
      rewrite suffix_app by done. by rewrite bool_decide_eq_true_2.
    + case_bool_decide; [done|]. by rewrite bool_decide_eq_true_2.
Qed.

(** X26. What the walk does to the tree: a file that the loop gets to (no
    directory on its path is in [SKIP_DIRS], and [should_process_file]
    accepts its name) is left as [convert_to_lf] leaves it, every other
    file is left as it was, and no file is added, removed or renamed. *)
Theorem scan_converts_visited_files root :
  all_files (scan_and_convert root).1
    = (λ pf, (pf.1, if visited pf.1 then (convert_to_lf pf.2).2 else pf.2))
        <$> all_files root.
Proof. unfold scan_and_convert. apply scan_all_files. Qed.

(** X27. The summary: the total scanned is the number of files the loop
    gets to; of these, the files converted are those that hold a CR LF
    and can be written, the errors those that hold a CR LF and cannot be
    written, and the files reported as already LF all the others, also
    those that cannot be read. The three add up to the total. *)
Theorem summary_counts root :
  let c := (scan_and_convert root).2 in
  total_scanned c = len (filter (counted (λ _, true)) (all_files root)) ∧
  converted_count c
    = len (filter (counted (λ f, has_crlf f && writable f))
             (all_files root)) ∧
  error_count c
    = len (filter (counted (λ f, has_crlf f && negb (writable f)))
             (all_files root)) ∧
  skipped_count c
    = len (filter (counted (λ f, negb (has_crlf f))) (all_files root)) ∧
  converted_count c + skipped_count c + error_count c = total_scanned c.
Proof.
  assert (∀ name f c,
    (scan_file name f c).2 =
      if should_process_file name then
        {| converted_count :=
             converted_count c + (if has_crlf f && writable f then 1 else 0);
           skipped_count :=
             skipped_count c + (if has_crlf f then 0 else 1);
           error_count :=
             error_count c + (if has_crlf f && negb (writable f) then 1 else 0);
           total_scanned := total_scanned c + 1 |}
      else c) as Hstep.
  { intros name f [n1 n2 n3 n4]. unfold scan_file.
    destruct (should_process_file name); [|done]. cbn [negb].
    unfold convert_to_lf, has_crlf.
    destruct f as [content [|] [|]];
      cbn [ConvertCrlf.content readable writable];
      try destruct (contains [CR; LF] content);
      cbn [andb negb converted_count skipped_count error_count
           total_scanned snd];
      f_equal; lia. }
  unfold scan_and_convert. cbn zeta.
  set (zero := {| converted_count := 0; skipped_count := 0;
                  error_count := 0; total_scanned := 0 |}).
  assert (∀ (g : counters → Z) (Q : file → bool),
    (∀ c f, g {| converted_count :=
                   converted_count c
                   + (if has_crlf f && writable f then 1 else 0);
                 skipped_count :=
                   skipped_count c + (if has_crlf f then 0 else 1);
                 error_count :=
                   error_count c
                   + (if has_crlf f && negb (writable f) then 1 else 0);
                 total_scanned := total_scanned c + 1 |}
            = g c + (if Q f then 1 else 0)) →
    g (scan root zero).2
      = g zero + len (filter (counted Q) (all_files root))) as Hcount.
  { intros g Q Hg. apply scan_g. intros name f c. rewrite Hstep.
    destruct (should_process_file name); [apply Hg|simpl; lia]. }
  assert (total_scanned (scan root zero).2
          = len (filter (counted (λ _, true)) (all_files root))) as Htotal.
  { rewrite (Hcount total_scanned (λ _, true)); [simpl; lia|].
    intros c f. simpl. lia. }
  assert (converted_count (scan root zero).2
          = len (filter (counted (λ f, has_crlf f && writable f))
                   (all_files root))) as Hconverted.
  { rewrite (Hcount converted_count (λ f, has_crlf f && writable f));
      [simpl; lia|].
    intros c f. simpl. lia. }
  assert (error_count (scan root zero).2
          = len (filter (counted (λ f, has_crlf f && negb (writable f)))
                   (all_files root))) as Herror.
  { rewrite (Hcount error_count (λ f, has_crlf f && negb (writable f)));
      [simpl; lia|].
    intros c f. simpl. lia. }
  assert (skipped_count (scan root zero).2
          = len (filter (counted (λ f, negb (has_crlf f))) (all_files root)))
    as Hskipped.
  { rewrite (Hcount skipped_count (λ f, negb (has_crlf f))); [simpl; lia|].
    intros c f. simpl. destruct (has_crlf f); simpl; lia. }
  assert (converted_count (scan root zero).2 + skipped_count (scan root zero).2
          + error_count (scan root zero).2 - total_scanned (scan root zero).2
          = 0) as Hsum.
  { rewrite (Hcount
      (λ c, converted_count c + skipped_count c + error_count c
            - total_scanned c) (λ _, false)).
    - rewrite (filter_none (counted (λ _, false))); [done|].
      apply Forall_true. intros pf. unfold counted.
      rewrite andb_false_r. by intros [].
    - intros c f. simpl. destruct (has_crlf f), (writable f); simpl; lia. }
  split_and!; [done..|lia].
Qed.

(** X28. A second walk: when no file of the tree holds CR CR LF, walking
    the tree that a first walk left changes no file and converts
    none. *)
Theorem second_scan_converts_nothing root :
  Forall (λ pf, contains [CR; CR; LF] (content pf.2) = false)
    (all_files root) →
  let root' := (scan_and_convert root).1 in
  (scan_and_convert root').1 = root' ∧
  converted_count (scan_and_convert root').2 = 0.
Proof.
  intros Hcr. unfold scan_and_convert.
  destruct (scan_again root
              {| converted_count := 0; skipped_count := 0;
                 error_count := 0; total_scanned := 0 |}
              {| converted_count := 0; skipped_count := 0;
                 error_count := 0; total_scanned := 0 |} Hcr)
    as [Hsame Hcount].
  cbn zeta in *. done.
Qed.

Lemma second_scan_converts_nothing_witness :
  let root' := (scan_and_convert crlf_project).1 in
  (scan_and_convert root').1 = root' ∧
  converted_count (scan_and_convert root').2 = 0.
Proof.
  apply (second_scan_converts_nothing crlf_project).
  apply (bool_decide_unpack _). by vm_compute.
Defined.

End Converter.

(** ** Undoing an indentation fix *)

Section Undo.
Import Py PyFacts IndentFacts FixIndentation Samples.

(** X29. A fix can be undone: after a line that starts with [found]
    spaces has been re-indented to [expected] spaces, the fix with the two
    numbers swapped gives the line back as it was. *)
Theorem fix_line_indentation_undone l expected found :
  0 ≤ expected →
  leading_spaces l = found →
  fix_line_indentation (fix_line_indentation l expected found) found expected
    = l.
Proof.
  intros Hexp Hfound.
  rewrite (fix_line_indentation_match l) by done.
  rewrite fix_line_indentation_match by (by apply leading_spaces_times).
  unfold times at 2. rewrite lstrip_replicate, lstrip_lstrip.
  subst found. symmetry. apply line_split.
Qed.

Lemma fix_line_indentation_undone_witness :
  fix_line_indentation (fix_line_indentation six_spaces_line 4 6) 6 4
    = six_spaces_line.
Proof.
  apply (fix_line_indentation_undone six_spaces_line 4 6); [lia|].
  vm_compute. reflexivity.
Defined.

End Undo.
